(** * VideoPlayer: the ring seek bar of [src/VideoPlayer.tsx]

    A shallow embedding of the React component [VideoPlayer]: the
    rounded-square path builder, the pointer projection onto the path, the
    seek commit and the derived rendering values.

    Numbers.  The component is embedded twice.

    In the first embedding a finite JavaScript number is an exact rational
    ([Q]) and rounding is left out; it carries the laws of the arithmetic:
    bounds, orders, clamps, the shape of the path, the invariants of a run.
    The values that are not finite are explicit where the source can meet
    them: the duration is a [num], the rationals extended with [+Infinity],
    [-Infinity] and [NaN] (a live stream reports [+Infinity], which
    [v.duration || 0] keeps), and so are the quotient [hoverLen / pathLen]
    and the time of the seek commit; the initial [Number.POSITIVE_INFINITY]
    of the scan is [None] in an [option Q].  The sign of zero is not
    modelled.

    The second embedding, the module [Double], computes on IEEE 754 binary64
    numbers, bit for bit: the pointer projection, whose outcome can turn on a
    last bit (a match at the tolerance, the sample kept among near ties), and
    the stroke descriptor, whose printed digits do.

    External collaborators.  The video element is seen through the calls the
    handlers make on it ([VideoCall]) and through the values its events carry;
    the SVG path element is a record of its two geometric queries. *)

From Stdlib Require Import List Bool ZArith QArith Qminmax Qround Qabs Lia Psatz.
From Stdlib Require Import String Ascii DecimalString.
From Stdlib Require Import Reals Qreals.
From Stdlib Require Floats.
Import ListNotations.

Local Open Scope Q_scope.

(** ** Numbers *)

(** [a < b] on finite numbers, as a boolean. *)
Definition Qlt_bool (a b : Q) : bool := negb (Qle_bool b a).

(** A number that may be non-finite: the result of a JavaScript division,
    or the duration of a medium, which is [+Infinity] for a live stream and
    [NaN] before the metadata are known. *)
Inductive num : Type :=
| Fin (q : Q)
| PInf
| NInf
| NaN.

(** [a / b] on finite operands: [0/0] is [NaN], [a/0] is the infinity of the
    sign of [a]. *)
Definition num_div (a b : Q) : num :=
  if Qeq_bool b 0 then
    if Qeq_bool a 0 then NaN
    else if Qlt_bool 0 a then PInf else NInf
  else Fin (a / b).

(** [x * y] *)
Definition num_mul (x y : num) : num :=
  match x, y with
  | NaN, _ | _, NaN => NaN
  | Fin a, Fin b => Fin (a * b)
  | Fin a, PInf | PInf, Fin a =>
      if Qeq_bool a 0 then NaN else if Qlt_bool 0 a then PInf else NInf
  | Fin a, NInf | NInf, Fin a =>
      if Qeq_bool a 0 then NaN else if Qlt_bool 0 a then NInf else PInf
  | PInf, PInf | NInf, NInf => PInf
  | PInf, NInf | NInf, PInf => NInf
  end.

(** [x - c] with [c] finite. *)
Definition num_sub (x : num) (c : Q) : num :=
  match x with
  | Fin q => Fin (q - c)
  | _ => x
  end.

(** [Math.min(x, y)] *)
Definition num_min (x y : num) : num :=
  match x, y with
  | NaN, _ | _, NaN => NaN
  | NInf, _ | _, NInf => NInf
  | PInf, _ => y
  | _, PInf => x
  | Fin a, Fin b => Fin (Qmin a b)
  end.

(** [Math.max(y, x)] with [y] finite. *)
Definition num_max (y : Q) (x : num) : num :=
  match x with
  | Fin q => Fin (Qmax y q)
  | PInf => PInf
  | NInf => Fin y
  | NaN => NaN
  end.

(** [x > 0] *)
Definition num_pos (x : num) : bool :=
  match x with
  | Fin q => Qlt_bool 0 q
  | PInf => true
  | _ => false
  end.

(** [!x]: a number is falsy when it is 0 or [NaN]. *)
Definition num_falsy (x : num) : bool :=
  match x with
  | Fin q => Qeq_bool q 0
  | NaN => true
  | _ => false
  end.

(** [x <= y], false when either is [NaN]. *)
Definition num_leb (x y : num) : bool :=
  match x, y with
  | NaN, _ | _, NaN => false
  | NInf, _ | _, PInf => true
  | Fin a, Fin b => Qle_bool a b
  | _, _ => false
  end.

(** The order of the numbers, as propositions. *)
Definition num_lt (x y : num) : Prop :=
  match x, y with
  | Fin a, Fin b => a < b
  | Fin _, PInf | NInf, Fin _ | NInf, PInf => True
  | _, _ => False
  end.

Definition num_le (x y : num) : Prop :=
  match x, y with
  | NaN, _ | _, NaN => False
  | NInf, _ | _, PInf => True
  | Fin a, Fin b => a <= b
  | _, _ => False
  end.

(** [Math.sqrt(d2) <= tol] for finite [d2] and [tol], decided without
    computing the root: the square root of a negative number is [NaN], which
    compares false; otherwise the root is at most [tol] when [tol] is not
    negative and [d2 <= tol * tol].  [sqrt_le_bool_spec] relates it to the
    real square root. *)
Definition sqrt_le_bool (d2 tol : Q) : bool :=
  Qle_bool 0 d2 && Qle_bool 0 tol && Qle_bool d2 (tol * tol).

(** [Math.ceil] as a number. *)
Definition ceil (x : Q) : Q := inject_Z (Qceiling x).

(** ** Props *)

Record Props : Type := mkProps {
  src : string;
  size : Q;
  radius : Q;
  barWidth : Q
}.

(** The defaults of the destructuring pattern. *)
Definition defaultProps (s : string) : Props :=
  {| src := s; size := 360; radius := 50; barWidth := 24 |}.

(** ** PathBuilder *)

Record Point : Type := mkPoint { px : Q; py : Q }.

(** One command of the SVG path data; the string [d] of the source is these
    commands printed and joined by spaces. *)
Inductive PathCmd : Type :=
| MoveTo (x y : Q)
| LineTo (x y : Q)
| Arc (rx ry : Q) (rotation : Q) (largeArc sweep : bool) (x y : Q).

(** [pad = Math.ceil(barWidth / 2) + 2] *)
Definition pad (p : Props) : Q := ceil (barWidth p / 2) + 2.

Definition sv (p : Props) : Q := size p.

Definition path_w (p : Props) : Q := sv p - pad p * 2.
Definition path_h (p : Props) : Q := sv p - pad p * 2.

(** [r = Math.min(radius, w / 2, h / 2)] *)
Definition path_r (p : Props) : Q :=
  Qmin (radius p) (Qmin (path_w p / 2) (path_h p / 2)).

Definition path_x0 (p : Props) : Q := pad p + path_w p / 2.
Definition path_y0 (p : Props) : Q := pad p.

(** The memoised path [d]. *)
Definition d (p : Props) : list PathCmd :=
  let pad := pad p in
  let w := path_w p in
  let h := path_h p in
  let r := path_r p in
  let x0 := path_x0 p in
  let y0 := path_y0 p in
  [ MoveTo x0 y0;
    LineTo (pad + w - r) y0;
    Arc r r 0 false true (pad + w) (pad + r);
    LineTo (pad + w) (pad + h - r);
    Arc r r 0 false true (pad + w - r) (pad + h);
    LineTo (pad + r) (pad + h);
    Arc r r 0 false true pad (pad + h - r);
    LineTo pad (pad + r);
    Arc r r 0 false true (pad + r) pad;
    LineTo x0 y0 ].

(** The point a command moves the pen to. *)
Definition cmd_point (c : PathCmd) : Point :=
  match c with
  | MoveTo x y => mkPoint x y
  | LineTo x y => mkPoint x y
  | Arc _ _ _ _ _ x y => mkPoint x y
  end.

(** The radii of a command, when it is an arc. *)
Definition cmd_radii (c : PathCmd) : option (Q * Q) :=
  match c with
  | Arc rx ry _ _ _ _ _ => Some (rx, ry)
  | _ => None
  end.

Definition path_start (l : list PathCmd) : option Point :=
  option_map cmd_point (hd_error l).

Definition path_end (l : list PathCmd) : option Point :=
  option_map cmd_point (hd_error (rev l)).

(** Every coordinate of the path, in order. *)
Definition path_points (l : list PathCmd) : list Point := map cmd_point l.

Definition in_box (s : Q) (pt : Point) : Prop :=
  0 <= px pt <= s /\ 0 <= py pt <= s.

(** ** The component *)

(** The path element behind [pathRef]: its two geometric queries. *)
Record SVGPath : Type := mkSVGPath {
  getTotalLength : Q;
  getPointAtLength : Q -> Point
}.

(** The five [useState] cells and the two refs. [videoRef] records whether
    [videoRef.current] is set. *)
Record State : Type := mkState {
  isPlaying : bool;
  duration : num;
  current : Q;
  hoverLen : option Q;
  pathLen : Q;
  videoRef : bool;
  pathRef : option SVGPath
}.

(** The state of the first render: nothing mounted yet, the path length at
    its initial value [1]. *)
Definition initialState : State :=
  {| isPlaying := false; duration := Fin 0; current := 0; hoverLen := None;
     pathLen := 1; videoRef := false; pathRef := None |}.

(** After the first commit both refs are set. *)
Definition mounted (p : SVGPath) : State :=
  {| isPlaying := false; duration := Fin 0; current := 0; hoverLen := None;
     pathLen := 1; videoRef := true; pathRef := Some p |}.

Definition setIsPlaying (b : bool) (st : State) : State :=
  {| isPlaying := b; duration := duration st; current := current st;
     hoverLen := hoverLen st; pathLen := pathLen st;
     videoRef := videoRef st; pathRef := pathRef st |}.

Definition setDuration (x : num) (st : State) : State :=
  {| isPlaying := isPlaying st; duration := x; current := current st;
     hoverLen := hoverLen st; pathLen := pathLen st;
     videoRef := videoRef st; pathRef := pathRef st |}.

Definition setCurrent (x : Q) (st : State) : State :=
  {| isPlaying := isPlaying st; duration := duration st; current := x;
     hoverLen := hoverLen st; pathLen := pathLen st;
     videoRef := videoRef st; pathRef := pathRef st |}.

Definition setHoverLen (x : option Q) (st : State) : State :=
  {| isPlaying := isPlaying st; duration := duration st; current := current st;
     hoverLen := x; pathLen := pathLen st;
     videoRef := videoRef st; pathRef := pathRef st |}.

Definition setPathLen (x : Q) (st : State) : State :=
  {| isPlaying := isPlaying st; duration := duration st; current := current st;
     hoverLen := hoverLen st; pathLen := x;
     videoRef := videoRef st; pathRef := pathRef st |}.

(** [x || 0] on a finite number. *)
Definition or_zero (x : Q) : Q := if Qeq_bool x 0 then 0 else x.

(** [x || 0] on any number: 0 and [NaN] give 0, [+Infinity] is kept. *)
Definition num_or_zero (x : num) : num := if num_falsy x then Fin 0 else x.

(** The animation-frame callback of the measuring effect. *)
Definition measure (st : State) : State :=
  match pathRef st with
  | Some p => setPathLen (getTotalLength p) st
  | None => st
  end.

(** The three listeners on the video element; the argument is the value read
    from the element when the event fires.  [v.duration] is [NaN] while
    unknown and [+Infinity] for an unbounded stream; [v.currentTime] is
    finite. *)
Definition onLoaded (vduration : num) (st : State) : State :=
  setDuration (num_or_zero vduration) st.

Definition onTime (vcurrentTime : Q) (st : State) : State :=
  setCurrent (or_zero vcurrentTime) st.

Definition onEnd (st : State) : State := setIsPlaying false st.

(** [progress = duration > 0 ? current / duration : 0]; a finite number
    divided by [+Infinity] is 0. *)
Definition progress (st : State) : Q :=
  if num_pos (duration st)
  then match duration st with
       | Fin d => current st / d
       | _ => 0
       end
  else 0.

(** ** Pointer projection *)

(** What [handlePointerMove] reads from the event: the client coordinates and
    the bounding rectangle of the enclosing [svg]. *)
Record PointerEvent : Type := mkPointerEvent {
  clientX : Q;
  clientY : Q;
  rectLeft : Q;
  rectTop : Q
}.

Definition samples : nat := 480.

(** [l = (i / samples) * pathLen] *)
Definition sampleLen (L : Q) (i : nat) : Q :=
  (inject_Z (Z.of_nat i) / inject_Z (Z.of_nat samples)) * L.

(** [d2 = dx * dx + dy * dy] with [dx = pt.x - x], [dy = pt.y - y]. *)
Definition dist2 (x y : Q) (pt : Point) : Q :=
  let dx := px pt - x in
  let dy := py pt - y in
  dx * dx + dy * dy.

(** The two variables of the loop; [bestDist2 = None] is
    [Number.POSITIVE_INFINITY]. *)
Record Best : Type := mkBest { bestLen : Q; bestDist2 : option Q }.

(** [d2 < bestDist2] *)
Definition lt_best (d2 : Q) (b : option Q) : bool :=
  match b with
  | None => true
  | Some m => Qlt_bool d2 m
  end.

(** The body of the loop at index [i]. *)
Definition scan_step (p : SVGPath) (L x y : Q) (acc : Best) (i : nat) : Best :=
  let l := sampleLen L i in
  let pt := getPointAtLength p l in
  let d2 := dist2 x y pt in
  if lt_best d2 (bestDist2 acc) then mkBest l (Some d2) else acc.

(** The indices the loop runs over: [i = 0; i <= samples; i++]. *)
Definition indices : list nat := seq 0 (S samples).

(** [for (let i = 0; i <= samples; i++) { ... }] from
    [bestLen = 0], [bestDist2 = +Infinity]. *)
Definition scan (p : SVGPath) (L x y : Q) : Best :=
  fold_left (scan_step p L x y) indices (mkBest 0 None).

(** The arc lengths at which the loop calls [getPointAtLength]. *)
Definition sampledLengths (L : Q) : list Q := map (sampleLen L) indices.

(** [HOVER_TOL = Math.max(barWidth, 24)] *)
Definition HOVER_TOL (props : Props) : Q := Qmax (barWidth props) 24.

(** [Math.sqrt(bestDist2) <= HOVER_TOL]; the root of [+Infinity] is
    [+Infinity]. *)
Definition near (b : option Q) (tol : Q) : bool :=
  match b with
  | None => false
  | Some m => sqrt_le_bool m tol
  end.

Definition handlePointerMove (props : Props) (e : PointerEvent) (st : State)
  : State :=
  match pathRef st with
  | None => st
  | Some p =>
      let x := clientX e - rectLeft e in
      let y := clientY e - rectTop e in
      let best := scan p (pathLen st) x y in
      if near (bestDist2 best) (HOVER_TOL props)
      then setHoverLen (Some (bestLen best)) st
      else setHoverLen None st
  end.

Definition handlePointerLeave (st : State) : State := setHoverLen None st.

(** ** Playback control *)

(** A call on the video element. *)
Inductive VideoCall : Type :=
| SetCurrentTime (t : Q)
| Play
| Pause.

(** What a handler did: the next state, the calls it made on the video
    element, in order, and whether it ended by throwing.  A rejected [play()]
    is swallowed by the handlers and leaves no trace here. *)
Record Outcome : Type := mkOutcome {
  next : State;
  calls : list VideoCall;
  threw : bool
}.

Definition noop (st : State) : Outcome := mkOutcome st [] false.

(** [Math.max(0, Math.min(duration * frac, duration - 0.01))] with
    [frac = hoverLen / pathLen]. *)
Definition seekTime (h L : Q) (dur : num) : num :=
  let frac := num_div h L in
  num_max 0 (num_min (num_mul dur frac) (num_sub dur (1 # 100))).

(** Assigning a non-finite number to [currentTime] throws a [TypeError]; the
    handler stops there. *)
Definition seekFromHover (st : State) : Outcome :=
  match hoverLen st with
  | None => noop st
  | Some h =>
      if negb (videoRef st) || num_falsy (duration st) then noop st
      else
        match seekTime h (pathLen st) (duration st) with
        | Fin t => mkOutcome (setIsPlaying true st) [SetCurrentTime t; Play] false
        | _ => mkOutcome st [] true
        end
  end.

(** The play/pause button.  The [await] on [play()] only delays the state
    update; its rejection is swallowed. *)
Definition togglePlay (st : State) : Outcome :=
  if negb (videoRef st) then noop st
  else if isPlaying st
       then mkOutcome (setIsPlaying false st) [Pause] false
       else mkOutcome (setIsPlaying true st) [Play] false.

(** The replay button. *)
Definition replay (st : State) : Outcome :=
  if negb (videoRef st) then noop st
  else mkOutcome (setIsPlaying true st) [SetCurrentTime 0; Play] false.

(** ** Events *)

(** What can happen to a mounted player: the animation frame of the measuring
    effect, the three notifications of the video element with the value read
    from it, the three pointer handlers of the [svg], the two buttons. *)
Inductive Event : Type :=
| Measure
| Loaded (vduration : num)
| TimeUpdate (vcurrentTime : Q)
| Ended
| PointerMove (e : PointerEvent)
| PointerLeave
| PointerDown
| TogglePlay
| Replay.

Definition step (props : Props) (st : State) (ev : Event) : State :=
  match ev with
  | Measure => measure st
  | Loaded v => onLoaded v st
  | TimeUpdate v => onTime v st
  | Ended => onEnd st
  | PointerMove e => handlePointerMove props e st
  | PointerLeave => handlePointerLeave st
  | PointerDown => next (seekFromHover st)
  | TogglePlay => next (togglePlay st)
  | Replay => next (replay st)
  end.

(** The state after a sequence of events, oldest first. *)
Definition run (props : Props) (evs : list Event) (st : State) : State :=
  fold_left (step props) evs st.

(** ** Stroke descriptors *)

(** The result of [x.toFixed(2)] before printing: a sign and the integer [n]
    of hundredths with [n / 100] nearest to [|x|], the larger [n] on a tie. *)
Record Fixed2 : Type := mkFixed2 { negative : bool; hundredths : Z }.

Definition toFixed2_digits (x : Q) : Fixed2 :=
  mkFixed2 (Qlt_bool x 0) (Qfloor (Qabs x * 100 + (1 # 2))).

(** The number a [Fixed2] denotes. *)
Definition fixed_value (f : Fixed2) : Q :=
  let v := inject_Z (hundredths f) / 100 in
  if negative f then - v else v.

Definition digit_string (n : Z) : string :=
  NilZero.string_of_uint (N.to_uint (Z.to_N n)).

(** The decimal text: integer part, a point, two fraction digits. *)
Definition fixed_string (f : Fixed2) : string :=
  let n := hundredths f in
  ((if negative f then "-" else "") ++
   digit_string (n / 100) ++ "." ++
   digit_string ((n / 10) mod 10) ++ digit_string (n mod 10))%string.

(** From [1e21] on, [toFixed] prints in exponent format. *)
Definition fixed_limit : Q := inject_Z (10 ^ 21).

(** [x.toFixed(2)]; [None] stands for the exponent format of a number of
    magnitude [1e21] or more, which is not modelled. *)
Definition toFixed2 (x : Q) : option string :=
  if Qlt_bool (Qabs x) fixed_limit
  then Some (fixed_string (toFixed2_digits x))
  else None.

(** [redDash = `${(progress * pathLen).toFixed(2)} ${pathLen.toFixed(2)}`] *)
Definition redDash (st : State) : option string :=
  match toFixed2 (progress st * pathLen st), toFixed2 (pathLen st) with
  | Some a, Some b => Some (a ++ " " ++ b)%string
  | _, _ => None
  end.

(** The two numbers [redDash] prints: the dash and the gap. *)
Definition redDashValues (st : State) : Q * Q :=
  (fixed_value (toFixed2_digits (progress st * pathLen st)),
   fixed_value (toFixed2_digits (pathLen st))).

Definition yellowVisible : Q := 10.

(** [yellowOffset], the dash offset of the hover marker. *)
Definition yellowOffset (st : State) : Q :=
  match hoverLen st with
  | None => 0
  | Some h => Qmax (pathLen st - (h - yellowVisible / 2)) 0
  end.

(** ** The spec's vocabulary *)

(** [clamp(x, lo, hi)] *)
Definition clamp (x lo hi : Q) : Q := Qmax lo (Qmin x hi).

(** The Euclidean distance between the pointer [(x, y)] and a point. *)
Definition euclid (x y : Q) (pt : Point) : R :=
  sqrt ((Q2R (px pt) - Q2R x) * (Q2R (px pt) - Q2R x)
        + (Q2R (py pt) - Q2R y) * (Q2R (py pt) - Q2R y))%R.

(** The least element of a non-empty list of reals. *)
Definition Rmin_list (a : R) (l : list R) : R := fold_left Rmin l a.

(** The distance from the pointer to the nearest sampled point of the
    path. *)
Definition nearestDistance (p : SVGPath) (L x y : Q) : R :=
  Rmin_list (euclid x y (getPointAtLength p (sampleLen L 0)))
            (map (fun i => euclid x y (getPointAtLength p (sampleLen L i)))
                 (seq 1 samples)).

(** A path element whose every point is [pt]: a degenerate path. *)
Definition constPath (len : Q) (pt : Point) : SVGPath :=
  mkSVGPath len (fun _ => pt).

(** ** Concrete configurations *)

(** A square track: the default size and stroke, no rounding of the
    corners.  [pad = 14], [w = h = 332]. *)
Definition squareProps : Props := mkProps "" 360 0 24.

(** The path element of [squareProps].  From the top-midpoint [(180, 14)]
    the path runs right to [(346, 14)], down to [(346, 346)], left to
    [(14, 346)], up to [(14, 14)] and right again to the start:
    [166 + 332 + 332 + 332 + 166 = 1328].  An arc length outside
    [[0, 1328]] is clamped. *)
Definition squareTrack : SVGPath :=
  mkSVGPath 1328
    (fun l0 =>
       let l := clamp l0 0 1328 in
       if Qle_bool l 166 then mkPoint (180 + l) 14
       else if Qle_bool l 498 then mkPoint 346 (14 + (l - 166))
       else if Qle_bool l 830 then mkPoint (346 - (l - 498)) 346
       else if Qle_bool l 1162 then mkPoint 14 (346 - (l - 830))
       else mkPoint (14 + (l - 1162)) 14).

(** The pointer on the start of the track, the surface at the origin of the
    client frame. *)
Definition ev_start : PointerEvent := mkPointerEvent 180 14 0 0.


(** The player measured, a 100 s medium at 25 s. *)
Definition quarterPlayed : State :=
  run squareProps [Measure; Loaded (Fin 100); TimeUpdate 25] (mounted squareTrack).

(** The player measured, a 3 s medium at 1 s. *)
Definition thirdPlayed : State :=
  run squareProps [Measure; Loaded (Fin 3); TimeUpdate 1] (mounted squareTrack).

(** A hover location at 99% of the track, on the 100 s medium. *)
Definition nearEnd : State :=
  setHoverLen (Some ((99 # 100) * 1328)) quarterPlayed.

(** The same hover location on a medium of 5 ms. *)
Definition shortClip : State :=
  setHoverLen (Some ((99 # 100) * 1328))
    (run squareProps [Measure; Loaded (Fin (5 # 1000))] (mounted squareTrack)).

(** A medium whose duration was announced as 1 s and that plays on to 2 s. *)
Definition overrun : State :=
  run squareProps [Measure; Loaded (Fin 1); TimeUpdate 2] (mounted squareTrack).

(** Props that leave no drawable span: [pad = 14], [w = h = 0]. *)
Definition tinyProps : Props := mkProps "" 28 50 24.

(** Props smaller than their own padding. *)
Definition smallProps : Props := mkProps "" 10 50 24.

(** The path element of [tinyProps]: every point is [(14, 14)], the length
    is 0. *)
Definition emptyTrack : SVGPath := constPath 0 (mkPoint 14 14).

(** [tinyProps] mounted and measured, the pointer moved onto the track, the
    metadata of a 10 s medium loaded. *)
Definition emptyHovered : State :=
  run tinyProps [Measure; PointerMove (mkPointerEvent 14 14 0 0); Loaded (Fin 10)]
      (mounted emptyTrack).

(** The squared distance the loop computes at index [i]. *)
Definition d2_at (p : SVGPath) (L x y : Q) (i : nat) : Q :=
  dist2 x y (getPointAtLength p (sampleLen L i)).

(** [i] is the first index of [[a, b)] at which [f] is least. *)
Definition first_min (f : nat -> Q) (a b i : nat) : Prop :=
  (a <= i < b)%nat /\
  (forall j, (a <= j < b)%nat -> f i <= f j) /\
  (forall j, (a <= j < i)%nat -> f i < f j).

(** ** Rendering conditions *)

(** [current >= duration - 0.01 && duration > 0]: the condition under which
    the label reads "Play Again" and the Replay button is rendered. *)
Definition atEnd (st : State) : bool :=
  num_leb (num_sub (duration st) (1 # 100)) (Fin (current st))
  && num_pos (duration st).

(** The label of the play button. *)
Definition playLabel (st : State) : string :=
  if negb (isPlaying st)
  then (if atEnd st then "Play Again" else "Play")
  else "Pause".

(** [strokeWidth={Math.max(barWidth, 28)}] of the transparent hit path. *)
Definition hitWidth (props : Props) : Q := Qmax (barWidth props) 28.

(** ** Calls along a run *)

(** The calls one event makes on the video element. *)
Definition calls_of (st : State) (ev : Event) : list VideoCall :=
  match ev with
  | PointerDown => calls (seekFromHover st)
  | TogglePlay => calls (togglePlay st)
  | Replay => calls (replay st)
  | _ => []
  end.

(** All the calls of a sequence of events, in order. *)
Fixpoint run_calls (props : Props) (evs : list Event) (st : State)
  : list VideoCall :=
  match evs with
  | [] => []
  | ev :: evs' => calls_of st ev ++ run_calls props evs' (step props st ev)
  end.

(** ** Segments of a path *)

(** Each command after the first, with the pen position it starts from. *)
Fixpoint segments_from (pen : Point) (l : list PathCmd)
  : list (Point * PathCmd) :=
  match l with
  | [] => []
  | c :: l' => (pen, c) :: segments_from (cmd_point c) l'
  end.

Definition path_segments (l : list PathCmd) : list (Point * PathCmd) :=
  match l with
  | [] => []
  | c :: l' => segments_from (cmd_point c) l'
  end.

(** A line is horizontal or vertical; an arc spans its radii, once across
    and once down or up, as a quarter of a circle does. *)
Definition segment_fits (s : Point * PathCmd) : Prop :=
  let (pen, c) := s in
  match c with
  | MoveTo _ _ => True
  | LineTo x y => px pen == x \/ py pen == y
  | Arc rx ry _ _ _ x y =>
      Qabs (x - px pen) == rx /\ Qabs (y - py pen) == ry
  end.

(** The length of a segment when it is a line (of a horizontal or vertical
    line: the one coordinate difference that is not 0). *)
Definition line_length (s : Point * PathCmd) : Q :=
  let (pen, c) := s in
  match c with
  | LineTo x y => Qabs (x - px pen) + Qabs (y - py pen)
  | _ => 0
  end.

(** The total length of the straight edges. *)
Definition straightLength (l : list PathCmd) : Q :=
  fold_right (fun s acc => line_length s + acc) 0 (path_segments l).

(** ** Further configurations *)

(** The pointer on the middle of the right edge of the square track. *)
Definition ev_right : PointerEvent := mkPointerEvent 346 180 0 0.

(** The measured player, the pointer moved onto the middle of the right edge
    (a quarter of the way round), the metadata of a 100 s medium loaded. *)
Definition sideHovered : State :=
  run squareProps [Measure; PointerMove ev_right; Loaded (Fin 100)]
      (mounted squareTrack).

(** The measured player with the pointer on the middle of the right edge,
    on an unbounded stream: the metadata report the duration [+Infinity]. *)
Definition liveHovered : State :=
  run squareProps [Measure; PointerMove ev_right; Loaded PInf]
      (mounted squareTrack).





(** ** Double precision *)

(** The pointer projection and the stroke descriptor once more, on the
    numbers JavaScript computes with: IEEE 754 binary64, every operation
    rounded to nearest, ties to even. *)
Module Double.
Import PrimFloat SpecFloat FloatOps.
Local Open Scope float_scope.

Record Point : Type := mkPoint { px : float; py : float }.

Record SVGPath : Type := mkSVGPath {
  getTotalLength : float;
  getPointAtLength : float -> Point
}.

Record Props : Type := mkProps {
  size : float;
  radius : float;
  barWidth : float
}.

Record State : Type := mkState {
  isPlaying : bool;
  duration : float;
  current : float;
  hoverLen : option float;
  pathLen : float;
  videoRef : bool;
  pathRef : option SVGPath
}.

Definition setIsPlaying (b : bool) (st : State) : State :=
  mkState b (duration st) (current st) (hoverLen st) (pathLen st)
          (videoRef st) (pathRef st).

Definition setHoverLen (h : option float) (st : State) : State :=
  mkState (isPlaying st) (duration st) (current st) h (pathLen st)
          (videoRef st) (pathRef st).

(** [x !== x] *)
Definition isNaN (x : float) : bool :=
  match Prim2SF x with
  | S754_nan => true
  | _ => false
  end.

(** [Math.max(a, b)]: [NaN] when either is; of the two zeros, [+0]. *)
Definition Math_max (a b : float) : float :=
  if isNaN a || isNaN b then nan
  else if a <? b then b
  else if b <? a then a
  else if get_sign a then b else a.

(** [duration > 0 ? current / duration : 0] *)
Definition progress (st : State) : float :=
  if 0 <? duration st then current st / duration st else 0.

Record PointerEvent : Type := mkPointerEvent {
  clientX : float;
  clientY : float;
  rectLeft : float;
  rectTop : float
}.

Definition samples : float := 480.

(** The loop variable after [n] increments [i++] from [0]. *)
Fixpoint counter (n : nat) : float :=
  match n with
  | O => 0
  | S k => counter k + 1
  end.

(** [l = (i / samples) * pathLen] *)
Definition sampleLen (L : float) (i : nat) : float :=
  (counter i / samples) * L.

(** [d2 = dx * dx + dy * dy] with [dx = pt.x - x], [dy = pt.y - y]. *)
Definition dist2 (x y : float) (pt : Point) : float :=
  let dx := px pt - x in
  let dy := py pt - y in
  dx * dx + dy * dy.

Record Best : Type := mkBest { bestLen : float; bestDist2 : float }.

(** The body of the loop at index [i]. *)
Definition scan_step (p : SVGPath) (L x y : float) (acc : Best) (i : nat)
  : Best :=
  let l := sampleLen L i in
  let pt := getPointAtLength p l in
  let d2 := dist2 x y pt in
  if d2 <? bestDist2 acc then mkBest l d2 else acc.

(** The loop, from [bestLen = 0] and [bestDist2 = +Infinity]. *)
Definition scan (p : SVGPath) (L x y : float) : Best :=
  fold_left (scan_step p L x y) indices (mkBest 0 infinity).

(** [HOVER_TOL = Math.max(barWidth, 24)] *)
Definition HOVER_TOL (props : Props) : float := Math_max (barWidth props) 24.

(** [Math.sqrt(bestDist2) <= HOVER_TOL] *)
Definition near (b tol : float) : bool := sqrt b <=? tol.

Definition handlePointerMove (props : Props) (e : PointerEvent) (st : State)
  : State :=
  match pathRef st with
  | None => st
  | Some p =>
      let x := clientX e - rectLeft e in
      let y := clientY e - rectTop e in
      let best := scan p (pathLen st) x y in
      if near (bestDist2 best) (HOVER_TOL props)
      then setHoverLen (Some (bestLen best)) st
      else setHoverLen None st
  end.

(** The rational number a finite double is. *)
Definition F2Q (x : float) : option Q :=
  match Prim2SF x with
  | S754_zero _ => Some 0%Q
  | S754_finite s m e =>
      let v := match e with
               | Z0 => inject_Z (Zpos m)
               | Zpos k => inject_Z (Zpos m * 2 ^ Zpos k)
               | Zneg k => Qmake (Zpos m) (2 ^ k)
               end in
      Some (if s then Qopp v else v)
  | _ => None
  end.

(** [x.toFixed(2)]: the exact value of the double [x], rounded to the
    nearest hundredth.  [None] stands for the exponent format of a number of
    magnitude [1e21] or more, which is not modelled. *)
Definition toFixed2 (x : float) : option string :=
  match Prim2SF x with
  | S754_nan => Some "NaN"%string
  | S754_infinity s => Some (if s then "-Infinity" else "Infinity")%string
  | _ => match F2Q x with
         | Some q => toFixed2 q
         | None => None
         end
  end.

(** [redDash = `${(progress * pathLen).toFixed(2)} ${pathLen.toFixed(2)}`] *)
Definition redDash (st : State) : option string :=
  match toFixed2 (progress st * pathLen st), toFixed2 (pathLen st) with
  | Some a, Some b => Some (a ++ " " ++ b)%string
  | _, _ => None
  end.

(** *** The distance, in the spec's words *)

(** The squared distance between the pointer and a point in exact
    arithmetic, without rounding. *)
Definition exactDist2 (x y : float) (pt : Point) : option Q :=
  match F2Q (px pt), F2Q (py pt), F2Q x, F2Q y with
  | Some a, Some b, Some c, Some d =>
      Some ((a - c) * (a - c) + (b - d) * (b - d))%Q
  | _, _, _, _ => None
  end.

(** The squared distance between the pointer and a point as a computation
    on doubles: each difference, each square and the sum rounded. *)
Definition squaredDistance (x y : float) (pt : Point) : float :=
  (px pt - x) * (px pt - x) + (py pt - y) * (py pt - y).

(** *** The order of the doubles *)

(** A double that is not [NaN] as a point of [Z * Z * Z], ordered
    lexicographically: the sign class, then exponent and mantissa. *)
Definition key (f : spec_float) : Z * Z * Z :=
  match f with
  | S754_zero _ => (0, 0, 0)%Z
  | S754_infinity s => ((if s then -2 else 2), 0, 0)%Z
  | S754_nan => (0, 0, 0)%Z
  | S754_finite s m e =>
      if s then (-1, - e, Zneg m)%Z else (1, e, Zpos m)%Z
  end.

Definition lexlt (a b : Z * Z * Z) : Prop :=
  (fst (fst a) < fst (fst b)
   \/ (fst (fst a) = fst (fst b)
       /\ (snd (fst a) < snd (fst b)
           \/ (snd (fst a) = snd (fst b) /\ snd a < snd b))))%Z.

(** *** Configurations *)

Definition squareProps : Props := mkProps 360 0 24.

(** The square track of [squareProps], as in the exact model. *)
Definition squareTrack : SVGPath :=
  mkSVGPath 1328
    (fun l0 =>
       let l := if l0 <? 0 then 0 else if 1328 <? l0 then 1328 else l0 in
       if l <=? 166 then mkPoint (180 + l) 14
       else if l <=? 498 then mkPoint 346 (14 + (l - 166))
       else if l <=? 830 then mkPoint (346 - (l - 498)) 346
       else if l <=? 1162 then mkPoint 14 (346 - (l - 830))
       else mkPoint (14 + (l - 1162)) 14).

(** The measured player on the square track. *)
Definition measured : State :=
  mkState false 0 0 None 1328 true (Some squareTrack).

(** The pointer 24 below the start of the track and [2^-30] to its
    right. *)
Definition ev_below : PointerEvent :=
  mkPointerEvent (180 + 0x1p-30) 38 0 0.


(** The pointer on the start of the track. *)
Definition ev_start : PointerEvent := mkPointerEvent 180 14 0 0.





(** A 100 s medium at 25 s, a 3 s medium at 1 s, a 640 s medium at 3 s. *)
Definition quarterPlayed : State :=
  mkState false 100 25 None 1328 true (Some squareTrack).

Definition thirdPlayed : State :=
  mkState false 3 1 None 1328 true (Some squareTrack).

Definition earlyPlayed : State :=
  mkState false 640 3 None 1328 true (Some squareTrack).

End Double.

Import PrimFloat.PrimFloatNotations.

(** ** Numbers: basic facts *)

Lemma Qlt_bool_iff (a b : Q) : Qlt_bool a b = true <-> a < b.
Proof.
  unfold Qlt_bool. rewrite negb_true_iff.
  split; intro H.
  - apply Qnot_le_lt. intro Hle. apply Qle_bool_iff in Hle. congruence.
  - destruct (Qle_bool b a) eqn:E; [|reflexivity].
    apply Qle_bool_iff in E. exfalso. lra.
Qed.

Lemma Qlt_bool_false_iff (a b : Q) : Qlt_bool a b = false <-> b <= a.
Proof.
  unfold Qlt_bool. rewrite negb_false_iff. apply Qle_bool_iff.
Qed.

Lemma Qeq_bool_false_iff (a b : Q) : Qeq_bool a b = false <-> ~ a == b.
Proof.
  split; intro H.
  - intro E. apply Qeq_bool_iff in E. congruence.
  - destruct (Qeq_bool a b) eqn:E; [|reflexivity].
    apply Qeq_bool_iff in E. contradiction.
Qed.

Lemma Qmax_cases (a b : Q) :
  (a < b /\ Qmax a b = b) \/ (b <= a /\ Qmax a b = a).
Proof.
  unfold Qmax, GenericMinMax.gmax.
  destruct (a ?= b) eqn:E.
  - right. split; [|reflexivity]. apply Qeq_alt in E. lra.
  - left. split; [|reflexivity]. apply Qlt_alt in E. exact E.
  - right. split; [|reflexivity]. apply Qgt_alt in E. lra.
Qed.

Lemma Qmin_cases (a b : Q) :
  (a <= b /\ Qmin a b = a) \/ (b < a /\ Qmin a b = b).
Proof.
  unfold Qmin, GenericMinMax.gmin.
  destruct (a ?= b) eqn:E.
  - left. split; [|reflexivity]. apply Qeq_alt in E. lra.
  - left. split; [|reflexivity]. apply Qlt_alt in E. lra.
  - right. split; [|reflexivity]. apply Qgt_alt in E. exact E.
Qed.

Lemma Qsquare_nonneg (q : Q) : 0 <= q * q.
Proof.
  destruct q as [n m]. unfold Qle, Qmult. simpl.
  rewrite Z.mul_1_r. apply Z.square_nonneg.
Qed.

Lemma dist2_nonneg (x y : Q) (pt : Point) : 0 <= dist2 x y pt.
Proof.
  unfold dist2. cbv zeta.
  pose proof (Qsquare_nonneg (px pt - x)).
  pose proof (Qsquare_nonneg (py pt - y)).
  lra.
Qed.

(** The decided comparison is the comparison of the real square root. *)
Lemma sqrt_le_bool_spec (d2 tol : Q) :
  0 <= d2 ->
  sqrt_le_bool d2 tol = true <-> (sqrt (Q2R d2) <= Q2R tol)%R.
Proof.
  intros Hd. unfold sqrt_le_bool.
  rewrite !andb_true_iff, !Qle_bool_iff.
  assert (Hd' : (0 <= Q2R d2)%R).
  { replace 0%R with (Q2R 0) by (unfold Q2R; simpl; lra). apply Qle_Rle, Hd. }
  split.
  - intros [[_ Ht] Hle].
    assert (Ht' : (0 <= Q2R tol)%R).
    { replace 0%R with (Q2R 0) by (unfold Q2R; simpl; lra). apply Qle_Rle, Ht. }
    apply Qle_Rle in Hle. rewrite Q2R_mult in Hle.
    rewrite <- (sqrt_square (Q2R tol)) by exact Ht'.
    apply sqrt_le_1_alt. exact Hle.
  - intros Hs.
    assert (Hs0 : (0 <= sqrt (Q2R d2))%R) by apply sqrt_pos.
    assert (Ht' : (0 <= Q2R tol)%R) by lra.
    repeat split.
    + exact Hd.
    + apply Rle_Qle. replace (Q2R 0) with 0%R by (unfold Q2R; simpl; lra). exact Ht'.
    + apply Rle_Qle. rewrite Q2R_mult.
      rewrite <- (sqrt_sqrt (Q2R d2)) by exact Hd'.
      apply Rmult_le_compat; assumption.
Qed.

(** ** The scan *)

Section ScanFacts.

Variable p : SVGPath.
Variables L x y : Q.

Local Abbreviation f := (d2_at p L x y).
Local Abbreviation step := (scan_step p L x y).
Local Abbreviation at_index i := (mkBest (sampleLen L i) (Some (f i))).

Lemma scan_step_some (i k : nat) :
  step (at_index i) k = if Qlt_bool (f k) (f i) then at_index k else at_index i.
Proof. reflexivity. Qed.

(** One more index keeps the accumulator at the first minimum. *)
Lemma first_min_step (a0 a i : nat) :
  first_min f a0 a i ->
  exists i', step (at_index i) a = at_index i' /\ first_min f a0 (S a) i'.
Proof.
  intros (Hr & Hle & Hlt).
  rewrite scan_step_some.
  destruct (Qlt_bool (f a) (f i)) eqn:E.
  - apply Qlt_bool_iff in E. exists a. split; [reflexivity|].
    repeat split; try lia.
    + intros j Hj. destruct (Nat.eq_dec j a) as [->|Hne]; [lra|].
      assert (f i <= f j) by (apply Hle; lia). lra.
    + intros j Hj. assert (f i <= f j) by (apply Hle; lia). lra.
  - apply Qlt_bool_false_iff in E. exists i. split; [reflexivity|].
    repeat split; try lia.
    + intros j Hj. destruct (Nat.eq_dec j a) as [->|Hne]; [exact E|].
      apply Hle. lia.
    + exact Hlt.
Qed.

Lemma fold_first_min (n a0 a i : nat) :
  first_min f a0 a i ->
  exists i', fold_left step (seq a n) (at_index i) = at_index i'
             /\ first_min f a0 (a + n) i'.
Proof.
  revert a i. induction n as [|n IH]; intros a i Hi.
  - exists i. split; [reflexivity|]. now rewrite Nat.add_0_r.
  - cbn [seq fold_left].
    destruct (first_min_step a0 a i Hi) as (i1 & E1 & H1).
    rewrite E1.
    destruct (IH (S a) i1 H1) as (i2 & E2 & H2).
    exists i2. split; [exact E2|].
    now replace (a + S n)%nat with (S a + n)%nat by lia.
Qed.

Lemma first_min_0 : first_min f 0 1 0.
Proof.
  repeat split; try lia.
  intros j Hj. replace j with 0%nat by lia. lra.
Qed.

Lemma fold_from_start (n : nat) :
  exists i, fold_left step (seq 0 (S n)) (mkBest 0 None) = at_index i
            /\ first_min f 0 (S n) i.
Proof.
  cbn [seq fold_left].
  destruct (fold_first_min n 0 1 0 first_min_0) as (i & E & H).
  exists i. split; [exact E|exact H].
Qed.

(** The loop ends on the first sample of least squared distance. *)
Lemma scan_first_min :
  exists i, scan p L x y = at_index i /\ first_min f 0 (S samples) i.
Proof. exact (fold_from_start samples). Qed.

End ScanFacts.

(** ** The nearest distance *)

Lemma Rmin_list_le (l : list R) (a : R) :
  (Rmin_list a l <= a)%R /\ (forall v, In v l -> (Rmin_list a l <= v)%R).
Proof.
  unfold Rmin_list. revert a. induction l as [|b l IH]; intros a; cbn [fold_left].
  - split; [lra|]. intros v [].
  - destruct (IH (Rmin a b)) as [H1 H2].
    pose proof (Rmin_l a b). pose proof (Rmin_r a b).
    split; [lra|].
    intros v [<-|Hv]; [lra|]. now apply H2.
Qed.

Lemma Rmin_list_in (l : list R) (a : R) :
  Rmin_list a l = a \/ In (Rmin_list a l) l.
Proof.
  unfold Rmin_list. revert a. induction l as [|b l IH]; intros a; cbn [fold_left].
  - now left.
  - destruct (IH (Rmin a b)) as [H|H].
    + rewrite H. unfold Rmin. destruct (Rle_dec a b); [now left|right; now left].
    + right. now right.
Qed.

(** The distance is the square root of the squared distance the loop
    computes. *)
Lemma euclid_dist2 (x y : Q) (pt : Point) :
  euclid x y pt = sqrt (Q2R (dist2 x y pt)).
Proof.
  unfold euclid, dist2. cbv zeta.
  rewrite Q2R_plus, !Q2R_mult, !Q2R_minus. reflexivity.
Qed.

Lemma euclid_mono (x y : Q) (p q : Point) :
  dist2 x y p <= dist2 x y q -> (euclid x y p <= euclid x y q)%R.
Proof.
  intro H. rewrite !euclid_dist2. apply sqrt_le_1_alt. now apply Qle_Rle.
Qed.

(** The nearest distance is the root of the least squared distance, the one
    the loop keeps. *)
Lemma nearestDistance_first_min (p : SVGPath) (L x y : Q) (i : nat) :
  first_min (d2_at p L x y) 0 (S samples) i ->
  nearestDistance p L x y = sqrt (Q2R (d2_at p L x y i)).
Proof.
  intros (Hr & Hle & _).
  set (g := fun j => euclid x y (getPointAtLength p (sampleLen L j))).
  unfold d2_at. rewrite <- euclid_dist2.
  change (euclid x y (getPointAtLength p (sampleLen L i))) with (g i).
  unfold nearestDistance. fold g.
  change (euclid x y (getPointAtLength p (sampleLen L 0))) with (g 0%nat).
  destruct (Rmin_list_le (map g (seq 1 samples)) (g 0%nat)) as [H0 Hall].
  apply Rle_antisym.
  - destruct (Nat.eq_dec i 0) as [->|Hne]; [exact H0|].
    apply Hall. apply in_map. apply in_seq. lia.
  - assert (Hg : forall j, (j < S samples)%nat -> (g i <= g j)%R).
    { intros j Hj. apply euclid_mono. apply (Hle j). lia. }
    destruct (Rmin_list_in (map g (seq 1 samples)) (g 0%nat)) as [E|E].
    + rewrite E. apply Hg. lia.
    + apply in_map_iff in E. destruct E as (j & Ej & Hj).
      rewrite <- Ej. apply Hg. apply in_seq in Hj. lia.
Qed.

(** ** The pointer-move handler *)

(** What the handler leaves in [hoverLen] when the path is mounted. *)
Lemma handlePointerMove_hover (props : Props) (e : PointerEvent) (st : State)
      (p : SVGPath) :
  pathRef st = Some p ->
  exists i,
    first_min (d2_at p (pathLen st) (clientX e - rectLeft e) (clientY e - rectTop e))
              0 (S samples) i /\
    hoverLen (handlePointerMove props e st) =
      if sqrt_le_bool
           (d2_at p (pathLen st) (clientX e - rectLeft e) (clientY e - rectTop e) i)
           (HOVER_TOL props)
      then Some (sampleLen (pathLen st) i) else None.
Proof.
  intros Hp. unfold handlePointerMove. rewrite Hp. cbv zeta.
  destruct (scan_first_min p (pathLen st) (clientX e - rectLeft e)
                           (clientY e - rectTop e)) as (i & E & H).
  exists i. split; [exact H|].
  rewrite E. cbn [bestDist2 bestLen near].
  destruct (sqrt_le_bool _ _); reflexivity.
Qed.

Lemma sampleLen_range (L : Q) (i : nat) :
  (i <= samples)%nat -> 0 <= L -> 0 <= sampleLen L i <= L.
Proof.
  intros Hi HL. unfold sampleLen.
  set (q := inject_Z (Z.of_nat i) / inject_Z (Z.of_nat samples)).
  assert (Hq : 0 <= q <= 1).
  { unfold q. change (inject_Z (Z.of_nat samples)) with 480.
    assert (0 <= inject_Z (Z.of_nat i) <= 480).
    { split.
      - change 0 with (inject_Z 0). rewrite <- Zle_Qle. lia.
      - change 480 with (inject_Z 480). rewrite <- Zle_Qle.
        unfold samples in Hi. lia. }
    split.
    - apply Qle_shift_div_l; lra.
    - apply Qle_shift_div_r; lra. }
  split; nra.
Qed.

(** The loop reads the path only at the arc lengths of [sampledLengths]. *)
Lemma scan_over_sampledLengths (p : SVGPath) (L x y : Q) :
  scan p L x y =
  fold_left
    (fun acc l =>
       let d2 := dist2 x y (getPointAtLength p l) in
       if lt_best d2 (bestDist2 acc) then mkBest l (Some d2) else acc)
    (sampledLengths L) (mkBest 0 None).
Proof.
  unfold scan, sampledLengths.
  generalize (mkBest 0 None). generalize indices.
  induction l as [|i l IH]; intros acc; [reflexivity|].
  cbn [map fold_left]. rewrite IH. reflexivity.
Qed.



(** ** The seek commit *)

Lemma seekTime_finite (h L d : Q) :
  ~ L == 0 ->
  seekTime h L (Fin d) = Fin (Qmax 0 (Qmin (d * (h / L)) (d - (1 # 100)))).
Proof.
  intros HL. unfold seekTime, num_div.
  apply Qeq_bool_false_iff in HL. rewrite HL. reflexivity.
Qed.

Lemma seekFromHover_commit (st : State) (h t : Q) :
  hoverLen st = Some h ->
  videoRef st = true ->
  num_falsy (duration st) = false ->
  seekTime h (pathLen st) (duration st) = Fin t ->
  seekFromHover st =
    mkOutcome (setIsPlaying true st) [SetCurrentTime t; Play] false.
Proof.
  intros Hh Hv Hd Ht. unfold seekFromHover.
  rewrite Hh, Hv, Hd. cbn [negb orb]. rewrite Ht. reflexivity.
Qed.

Lemma num_falsy_Fin (d : Q) : num_falsy (Fin d) = false <-> ~ d == 0.
Proof. cbn [num_falsy]. apply Qeq_bool_false_iff. Qed.

Lemma clamp_bounds (x lo hi : Q) :
  lo <= clamp x lo hi /\ (lo <= hi -> clamp x lo hi <= hi).
Proof.
  unfold clamp.
  destruct (Qmax_cases lo (Qmin x hi)) as [[H1 ->]|[H1 ->]];
    destruct (Qmin_cases x hi) as [[H2 E]|[H2 E]]; rewrite ?E in *; split; intros; lra.
Qed.

Lemma Qmax_compat_r (a b c : Q) : b == c -> Qmax a b == Qmax a c.
Proof.
  intro E.
  destruct (Qmax_cases a b) as [[H1 ->]|[H1 ->]];
    destruct (Qmax_cases a c) as [[H2 ->]|[H2 ->]]; lra.
Qed.

Lemma Qmin_compat_l (a b c : Q) : a == b -> Qmin a c == Qmin b c.
Proof.
  intro E.
  destruct (Qmin_cases a c) as [[H1 ->]|[H1 ->]];
    destruct (Qmin_cases b c) as [[H2 ->]|[H2 ->]]; lra.
Qed.

(** ** Two-decimal rounding *)

Lemma toFixed2_close (x : Q) :
  Qabs (fixed_value (toFixed2_digits x) - x) <= 1 # 200.
Proof.
  unfold fixed_value, toFixed2_digits. cbn [negative hundredths].
  set (a := Qabs x * 100 + (1 # 2)).
  pose proof (Qfloor_le a) as Hlo.
  pose proof (Qlt_floor a) as Hhi.
  rewrite inject_Z_plus in Hhi. change (inject_Z 1) with 1 in Hhi.
  set (n := inject_Z (Qfloor a)) in *.
  assert (Hn : n / 100 == n * (1 # 100)) by (field).
  apply Qabs_Qle_condition.
  destruct (Qlt_bool x 0) eqn:E.
  - apply Qlt_bool_iff in E.
    assert (Ha : Qabs x == - x) by (apply Qabs_neg; lra).
    unfold a in Hlo, Hhi. rewrite Ha in Hlo, Hhi.
    rewrite Hn. split; lra.
  - apply Qlt_bool_false_iff in E.
    assert (Ha : Qabs x == x) by (apply Qabs_pos; lra).
    unfold a in Hlo, Hhi. rewrite Ha in Hlo, Hhi.
    rewrite Hn. split; lra.
Qed.

(** ** Runs *)

Lemma seekFromHover_refs (st : State) :
  pathRef (next (seekFromHover st)) = pathRef st /\
  pathLen (next (seekFromHover st)) = pathLen st.
Proof.
  unfold seekFromHover.
  destruct (hoverLen st) as [h|]; [|split; reflexivity].
  destruct (negb (videoRef st) || num_falsy (duration st));
    [split; reflexivity|].
  destruct (seekTime h (pathLen st) (duration st)); split; reflexivity.
Qed.

Lemma step_refs (props : Props) (st : State) (ev : Event) (p : SVGPath) :
  pathRef st = Some p ->
  pathRef (step props st ev) = Some p /\
  (pathLen (step props st ev) = pathLen st \/
   pathLen (step props st ev) = getTotalLength p).
Proof.
  intros Hp. destruct ev; cbn [step].
  - unfold measure. rewrite Hp. split; [exact Hp|now right].
  - split; [exact Hp|now left].
  - split; [exact Hp|now left].
  - split; [exact Hp|now left].
  - unfold handlePointerMove. rewrite Hp. cbv zeta.
    destruct (near _ _); (split; [exact Hp|now left]).
  - split; [exact Hp|now left].
  - destruct (seekFromHover_refs st) as [-> ->]. split; [exact Hp|now left].
  - unfold togglePlay. destruct (negb (videoRef st)); [|destruct (isPlaying st)];
      (split; [exact Hp|now left]).
  - unfold replay. destruct (negb (videoRef st)); (split; [exact Hp|now left]).
Qed.

(** The path length of a player is its initial 1 or a measured length: it is
    never negative when the path element reports no negative length. *)
Lemma run_pathLen_nonneg (props : Props) (evs : list Event) (st : State)
      (p : SVGPath) :
  pathRef st = Some p ->
  0 <= getTotalLength p ->
  0 <= pathLen st ->
  0 <= pathLen (run props evs st).
Proof.
  intros Hp Hlen. revert st Hp. unfold run.
  induction evs as [|ev evs IH]; intros st Hp HL; [exact HL|].
  cbn [fold_left].
  destruct (step_refs props st ev p Hp) as [Hp' [E|E]];
    apply IH; try exact Hp'; rewrite E; assumption.
Qed.

Lemma seekFromHover_hoverLen (st : State) :
  hoverLen (next (seekFromHover st)) = hoverLen st.
Proof.
  unfold seekFromHover.
  destruct (hoverLen st) as [h|] eqn:Eh; [|exact Eh].
  destruct (negb (videoRef st) || num_falsy (duration st));
    [exact Eh|].
  destruct (seekTime h (pathLen st) (duration st)); exact Eh.
Qed.

Lemma step_hover_range (props : Props) (st : State) (ev : Event) (p : SVGPath)
      (M : Q) :
  pathRef st = Some p ->
  0 <= pathLen st <= M ->
  (forall h, hoverLen st = Some h -> 0 <= h <= M) ->
  forall h, hoverLen (step props st ev) = Some h -> 0 <= h <= M.
Proof.
  intros Hp HL Hinv h. destruct ev; cbn [step].
  - unfold measure. rewrite Hp. apply Hinv.
  - apply Hinv.
  - apply Hinv.
  - apply Hinv.
  - destruct (handlePointerMove_hover props e st p Hp) as (i & (Hr & _) & E).
    rewrite E. destruct (sqrt_le_bool _ _); [|discriminate].
    intro H. injection H as <-.
    pose proof (sampleLen_range (pathLen st) i ltac:(lia) (proj1 HL)). lra.
  - discriminate.
  - rewrite seekFromHover_hoverLen. apply Hinv.
  - unfold togglePlay. destruct (negb (videoRef st)); [|destruct (isPlaying st)];
      apply Hinv.
  - unfold replay. destruct (negb (videoRef st)); apply Hinv.
Qed.


(** [squareTrack] is the path [d squareProps]: walking the side lengths
    from the start visits the end point of each of its ten commands; the
    arcs, of radius 0, have no length. *)
Lemma squareTrack_follows_d :
  Forall2 (fun l c =>
             px (getPointAtLength squareTrack l) == px (cmd_point c) /\
             py (getPointAtLength squareTrack l) == py (cmd_point c))
          [0; 166; 166; 498; 498; 830; 830; 1162; 1162; 1328]
          (d squareProps).
Proof.
  unfold d. cbv zeta.
  repeat (apply Forall2_cons; [split; vm_compute; reflexivity|]).
  apply Forall2_nil.
Qed.

(** [emptyTrack] is the path [d tinyProps]: all its commands end on
    [(14, 14)] and its arcs have radius 0, so its length is 0. *)
Lemma emptyTrack_follows_d :
  Forall (fun c => px (cmd_point c) == 14 /\ py (cmd_point c) == 14 /\
                   forall rx ry, cmd_radii c = Some (rx, ry) ->
                                 rx == 0 /\ ry == 0)
         (d tinyProps).
Proof.
  unfold d. cbv zeta.
  repeat (apply Forall_cons;
          [split; [vm_compute; reflexivity|];
           split; [vm_compute; reflexivity|];
           intros rx ry H; cbn in H; try discriminate H;
           injection H as <- <-; split; vm_compute; reflexivity|]).
  apply Forall_nil.
Qed.

(** ** Projection: helper facts *)

Lemma hover_nonnull_iff (props : Props) (e : PointerEvent) (st : State)
      (p : SVGPath) :
  pathRef st = Some p ->
  hoverLen (handlePointerMove props e st) <> None <->
  (nearestDistance p (pathLen st) (clientX e - rectLeft e)
                   (clientY e - rectTop e) <= Q2R (HOVER_TOL props))%R.
Proof.
  intros Hp.
  destruct (handlePointerMove_hover props e st p Hp) as (i & Hi & E).
  rewrite (nearestDistance_first_min _ _ _ _ _ Hi), E.
  pose proof (sqrt_le_bool_spec
                (d2_at p (pathLen st) (clientX e - rectLeft e)
                       (clientY e - rectTop e) i)
                (HOVER_TOL props) (dist2_nonneg _ _ _)) as S.
  destruct (sqrt_le_bool _ _).
  - split; [intros _; now apply S|discriminate].
  - split; [intro H; now contradiction H|].
    intro H. apply S in H. discriminate H.
Qed.

Lemma dist2_zero_iff (x y : Q) (pt : Point) :
  dist2 x y pt == 0 <-> px pt == x /\ py pt == y.
Proof.
  unfold dist2. cbv zeta.
  pose proof (Qsquare_nonneg (px pt - x)) as H1.
  pose proof (Qsquare_nonneg (py pt - y)) as H2.
  split.
  - intro H.
    assert (E1 : (px pt - x) * (px pt - x) == 0) by lra.
    assert (E2 : (py pt - y) * (py pt - y) == 0) by lra.
    apply Qmult_integral in E1. apply Qmult_integral in E2.
    split; [destruct E1|destruct E2]; lra.
  - intros [E1 E2].
    assert (Ex : px pt - x == 0) by lra.
    assert (Ey : py pt - y == 0) by lra.
    rewrite Ex, Ey. reflexivity.
Qed.

Lemma HOVER_TOL_ge_24 (props : Props) : 24 <= HOVER_TOL props.
Proof.
  unfold HOVER_TOL.
  destruct (Qmax_cases (barWidth props) 24) as [[H ->]|[H ->]]; lra.
Qed.

Lemma sqrt_le_bool_zero (d2 tol : Q) :
  d2 == 0 -> 0 <= tol -> sqrt_le_bool d2 tol = true.
Proof.
  intros Hd Ht. unfold sqrt_le_bool.
  pose proof (Qsquare_nonneg tol).
  rewrite !andb_true_iff, !Qle_bool_iff. repeat split; lra.
Qed.


(** ** Double precision: the order *)

Lemma SFltb_key (f1 f2 : SpecFloat.spec_float) :
  SpecFloat.SFltb f1 f2 = true <->
  f1 <> SpecFloat.S754_nan /\ f2 <> SpecFloat.S754_nan /\
  Double.lexlt (Double.key f1) (Double.key f2).
Proof.
  unfold SpecFloat.SFltb, SpecFloat.SFcompare, Double.lexlt, Double.key.
  destruct f1 as [s1|s1| |s1 m1 e1], f2 as [s2|s2| |s2 m2 e2];
    try destruct s1; try destruct s2; cbn [fst snd];
    try (split; [discriminate|intros (H1 & H2 & H3); try congruence; lia]);
    try (split; [intros _; repeat split; try discriminate; lia|reflexivity]).
  - change (Pos.compare_cont Eq m1 m2) with (Pos.compare m1 m2).
    destruct (Z.compare_spec e1 e2); destruct (Pos.compare_spec m1 m2);
      cbn [CompOpp];
      (split; [try discriminate; intros _; repeat split; try discriminate; lia
              |try reflexivity; intros (H1 & H2 & H3); lia]).
  - change (Pos.compare_cont Eq m1 m2) with (Pos.compare m1 m2).
    destruct (Z.compare_spec e1 e2); destruct (Pos.compare_spec m1 m2);
      (split; [try discriminate; intros _; repeat split; try discriminate; lia
              |try reflexivity; intros (H1 & H2 & H3); lia]).
Qed.

Lemma SFleb_key (f1 f2 : SpecFloat.spec_float) :
  SpecFloat.SFleb f1 f2 = true <->
  f1 <> SpecFloat.S754_nan /\ f2 <> SpecFloat.S754_nan /\
  ~ Double.lexlt (Double.key f2) (Double.key f1).
Proof.
  unfold SpecFloat.SFleb, SpecFloat.SFcompare, Double.lexlt, Double.key.
  destruct f1 as [s1|s1| |s1 m1 e1], f2 as [s2|s2| |s2 m2 e2];
    try destruct s1; try destruct s2; cbn [fst snd];
    try (split; [discriminate|intros (H1 & H2 & H3); try congruence; lia]);
    try (split; [intros _; repeat split; try discriminate; lia|reflexivity]).
  - change (Pos.compare_cont Eq m1 m2) with (Pos.compare m1 m2).
    destruct (Z.compare_spec e1 e2); destruct (Pos.compare_spec m1 m2);
      cbn [CompOpp];
      (split; [try discriminate; intros _; repeat split; try discriminate; lia
              |try reflexivity; intros (H1 & H2 & H3); lia]).
  - change (Pos.compare_cont Eq m1 m2) with (Pos.compare m1 m2).
    destruct (Z.compare_spec e1 e2); destruct (Pos.compare_spec m1 m2);
      (split; [try discriminate; intros _; repeat split; try discriminate; lia
              |try reflexivity; intros (H1 & H2 & H3); lia]).
Qed.

Lemma isNaN_false (x : PrimFloat.float) :
  Double.isNaN x = false <-> FloatOps.Prim2SF x <> SpecFloat.S754_nan.
Proof.
  unfold Double.isNaN.
  destruct (FloatOps.Prim2SF x); split; congruence.
Qed.

(** [a < b] on doubles, through the keys. *)
Lemma ltb_key (a b : PrimFloat.float) :
  (a <? b)%float = true <->
  Double.isNaN a = false /\ Double.isNaN b = false /\
  Double.lexlt (Double.key (FloatOps.Prim2SF a))
               (Double.key (FloatOps.Prim2SF b)).
Proof.
  rewrite FloatAxioms.ltb_spec, SFltb_key, !isNaN_false. reflexivity.
Qed.

Lemma leb_key (a b : PrimFloat.float) :
  (a <=? b)%float = true <->
  Double.isNaN a = false /\ Double.isNaN b = false /\
  ~ Double.lexlt (Double.key (FloatOps.Prim2SF b))
                 (Double.key (FloatOps.Prim2SF a)).
Proof.
  rewrite FloatAxioms.leb_spec, SFleb_key, !isNaN_false. reflexivity.
Qed.

Lemma ltb_irrefl (a : PrimFloat.float) : (a <? a)%float = false.
Proof.
  destruct (a <? a)%float eqn:E; [|reflexivity].
  apply ltb_key in E. destruct E as (_ & _ & H).
  unfold Double.lexlt in H. lia.
Qed.

Lemma ltb_trans (a b c : PrimFloat.float) :
  (a <? b)%float = true -> (b <? c)%float = true -> (a <? c)%float = true.
Proof.
  rewrite !ltb_key. unfold Double.lexlt.
  intros (Ha & Hb & H1) (_ & Hc & H2).
  split; [exact Ha|]. split; [exact Hc|]. lia.
Qed.

(** What is not below [b] is above whatever is below [b]. *)
Lemma ltb_below (a b c : PrimFloat.float) :
  (a <? b)%float = true -> (c <? b)%float = false -> Double.isNaN c = false ->
  (a <? c)%float = true.
Proof.
  intros H1 H2 Hc.
  apply ltb_key in H1. destruct H1 as (Ha & Hb & H1).
  apply ltb_key. split; [exact Ha|]. split; [exact Hc|].
  assert (H3 : ~ Double.lexlt (Double.key (FloatOps.Prim2SF c))
                              (Double.key (FloatOps.Prim2SF b))).
  { intro H. assert (E : (c <? b)%float = true) by (apply ltb_key; auto).
    congruence. }
  unfold Double.lexlt in *. lia.
Qed.

Lemma ltb_not_above (a b c : PrimFloat.float) :
  (c <? b)%float = false -> (a <? b)%float = true -> (c <? a)%float = false.
Proof.
  intros H1 H2. destruct (c <? a)%float eqn:E; [|reflexivity].
  rewrite (ltb_trans c a b E H2) in H1. discriminate.
Qed.

Lemma ltb_leb (a b : PrimFloat.float) :
  (a <? b)%float = true -> (b <=? a)%float = false.
Proof.
  intro H. apply ltb_key in H. destruct H as (_ & _ & H).
  destruct (b <=? a)%float eqn:E; [|reflexivity].
  apply leb_key in E. destruct E as (_ & _ & E). contradiction.
Qed.

Lemma leb_refl (a : PrimFloat.float) :
  Double.isNaN a = false -> (a <=? a)%float = true.
Proof.
  intro H. apply leb_key. split; [exact H|]. split; [exact H|].
  unfold Double.lexlt. lia.
Qed.

(** [Math.max(a, 24)] is at least 24. *)
Lemma Math_max_ge (a b : PrimFloat.float) :
  Double.isNaN a = false -> Double.isNaN b = false ->
  (b <=? Double.Math_max a b)%float = true.
Proof.
  intros Ha Hb. unfold Double.Math_max. rewrite Ha, Hb. cbn [orb].
  destruct (a <? b)%float eqn:E1; [now apply leb_refl|].
  destruct (b <? a)%float eqn:E2.
  - apply leb_key. split; [exact Hb|]. split; [exact Ha|].
    apply ltb_key in E2. destruct E2 as (_ & _ & E2).
    unfold Double.lexlt in *. lia.
  - destruct (PrimFloat.get_sign a); [now apply leb_refl|].
    apply leb_key. split; [exact Hb|]. split; [exact Ha|].
    intro H. assert (E : (a <? b)%float = true) by (apply ltb_key; auto).
    congruence.
Qed.

(** ** Double precision: the scan *)

(** The loop of [handlePointerMove] over the first [n] indices: either no
    sample computed a squared distance below [+Infinity] and the two
    variables are as initialised, or they hold the arc length and the squared
    distance of a sample [i] such that no sample computed less and every
    earlier one that is a number computed more. *)
Lemma scan_upto (p : Double.SVGPath) (L x y : PrimFloat.float) (n : nat) :
  let d2 := fun i => Double.dist2 x y
                       (Double.getPointAtLength p (Double.sampleLen L i)) in
  let r := fold_left (Double.scan_step p L x y) (seq 0 n)
                     (Double.mkBest PrimFloat.zero PrimFloat.infinity) in
  (r = Double.mkBest PrimFloat.zero PrimFloat.infinity /\
   forall j, (j < n)%nat -> (d2 j <? PrimFloat.infinity)%float = false)
  \/
  (exists i, (i < n)%nat /\
     r = Double.mkBest (Double.sampleLen L i) (d2 i) /\
     (forall j, (j < n)%nat -> (d2 j <? d2 i)%float = false) /\
     (forall j, (j < i)%nat -> Double.isNaN (d2 j) = false ->
                (d2 i <? d2 j)%float = true)).
Proof.
  intros d2. induction n as [|n IH]; intro r.
  - left. split; [reflexivity|]. intros j Hj. lia.
  - subst r. rewrite seq_S, fold_left_app. cbn [fold_left plus].
    set (r := fold_left (Double.scan_step p L x y) (seq 0 n)
                (Double.mkBest PrimFloat.zero PrimFloat.infinity)) in *.
    assert (Hstep : Double.scan_step p L x y r n
                    = if (d2 n <? Double.bestDist2 r)%float
                      then Double.mkBest (Double.sampleLen L n) (d2 n)
                      else r) by reflexivity.
    rewrite Hstep. clear Hstep.
    destruct IH as [(E & Hall)|(i & Hi & E & Hall & Hbefore)].
    + rewrite E. cbn [Double.bestDist2].
      destruct (d2 n <? PrimFloat.infinity)%float eqn:En.
      * right. exists n. split; [lia|]. split; [reflexivity|]. split.
        -- intros j Hj. destruct (Nat.eq_dec j n) as [->|Hne].
           ++ apply ltb_irrefl.
           ++ apply ltb_not_above with (b := PrimFloat.infinity);
                [apply Hall; lia|exact En].
        -- intros j Hj Hnan.
           apply ltb_below with (b := PrimFloat.infinity);
             [exact En|apply Hall; lia|exact Hnan].
      * left. split; [reflexivity|].
        intros j Hj. destruct (Nat.eq_dec j n) as [->|Hne];
          [exact En|apply Hall; lia].
    + rewrite E. cbn [Double.bestDist2].
      destruct (d2 n <? d2 i)%float eqn:En.
      * right. exists n. split; [lia|]. split; [reflexivity|]. split.
        -- intros j Hj. destruct (Nat.eq_dec j n) as [->|Hne].
           ++ apply ltb_irrefl.
           ++ apply ltb_not_above with (b := d2 i);
                [apply Hall; lia|exact En].
        -- intros j Hj Hnan.
           apply ltb_below with (b := d2 i);
             [exact En|apply Hall; lia|exact Hnan].
      * right. exists i. split; [lia|]. split; [reflexivity|]. split.
        -- intros j Hj. destruct (Nat.eq_dec j n) as [->|Hne];
             [exact En|apply Hall; lia].
        -- exact Hbefore.
Qed.

(** The same for the whole loop. *)
Lemma scan_first_least (p : Double.SVGPath) (L x y : PrimFloat.float) :
  let d2 := fun i => Double.dist2 x y
                       (Double.getPointAtLength p (Double.sampleLen L i)) in
  (Double.scan p L x y = Double.mkBest PrimFloat.zero PrimFloat.infinity /\
   forall j, (j <= 480)%nat -> (d2 j <? PrimFloat.infinity)%float = false)
  \/
  (exists i, (i <= 480)%nat /\
     Double.scan p L x y = Double.mkBest (Double.sampleLen L i) (d2 i) /\
     (forall j, (j <= 480)%nat -> (d2 j <? d2 i)%float = false) /\
     (forall j, (j < i)%nat -> Double.isNaN (d2 j) = false ->
                (d2 i <? d2 j)%float = true)).
Proof.
  intro d2.
  destruct (scan_upto p L x y (S samples)) as [(E & H)|(i & Hi & E & H1 & H2)].
  - left. split; [exact E|]. intros j Hj. apply H. unfold samples. lia.
  - right. exists i. split; [unfold samples in Hi; lia|].
    split; [exact E|]. split; [|exact H2].
    intros j Hj. apply H1. unfold samples. lia.
Qed.

(** * The claims *)

(** ** C1: the unmeasured path *)




(** ** C2: the committed seek time *)

(** C2, as amended.  For a hover location [h], a path length [L > 0] and a
    finite duration [d > 0], with the video element mounted, pointer-down
    assigns the playback time [clamp((h/L) * d, 0, d - 0.01)], calls [play()]
    and sets the playing flag; for [h = 0.99 * L] and [d >= 0.01] the time is
    [min(d * 0.99, d - 0.01)]. *)
Theorem seek_assigns_clamped (st : State) (h d : Q) :
  hoverLen st = Some h ->
  videoRef st = true ->
  0 < pathLen st ->
  duration st = Fin d ->
  0 < d ->
  exists t,
    seekFromHover st =
      mkOutcome (setIsPlaying true st) [SetCurrentTime t; Play] false /\
    t == clamp (h / pathLen st * d) 0 (d - (1 # 100)) /\
    (h == (99 # 100) * pathLen st -> (1 # 100) <= d ->
     t == Qmin (d * (99 # 100)) (d - (1 # 100))).
Proof.
  intros Hh Hv HL Hdur Hd.
  set (L := pathLen st) in *.
  exists (Qmax 0 (Qmin (d * (h / L)) (d - (1 # 100)))).
  split; [|split].
  - apply seekFromHover_commit with (h := h); try assumption.
    + rewrite Hdur. apply num_falsy_Fin. lra.
    + rewrite Hdur. apply seekTime_finite. fold L. lra.
  - unfold clamp. apply Qmax_compat_r, Qmin_compat_l. ring.
  - intros E Hd'.
    assert (Ef : d * (h / L) == d * (99 # 100)).
    { rewrite E. field. lra. }
    rewrite (Qmax_compat_r 0 _ _ (Qmin_compat_l _ _ (d - (1 # 100)) Ef)).
    destruct (Qmin_cases (d * (99 # 100)) (d - (1 # 100))) as [[H1 ->]|[H1 ->]];
      [destruct (Qmax_cases 0 (d * (99 # 100))) as [[H2 ->]|[H2 ->]]
      |destruct (Qmax_cases 0 (d - (1 # 100))) as [[H2 ->]|[H2 ->]]]; lra.
Qed.

Lemma seek_assigns_clamped_witness :
  exists t,
    seekFromHover nearEnd =
      mkOutcome (setIsPlaying true nearEnd) [SetCurrentTime t; Play] false /\
    t == clamp ((99 # 100) * 1328 / pathLen nearEnd * 100) 0 (100 - (1 # 100)) /\
    ((99 # 100) * 1328 == (99 # 100) * pathLen nearEnd ->
     (1 # 100) <= 100 ->
     t == Qmin (100 * (99 # 100)) (100 - (1 # 100))).
Proof.
  apply (seek_assigns_clamped nearEnd ((99 # 100) * 1328) 100).
  - reflexivity.
  - reflexivity.
  - vm_compute. reflexivity.
  - reflexivity.
  - vm_compute. reflexivity.
Defined.

(** C2 fails as stated for a duration below 0.01: with [d = 0.005] and
    [h = 0.99 * L] the committed time is [0], while [min(d * 0.99, d - 0.01)]
    is [-0.005]. *)
Lemma seek_short_clip :
  hoverLen shortClip = Some ((99 # 100) * pathLen shortClip) /\
  0 < pathLen shortClip /\ duration shortClip = Fin (5 # 1000) /\
  calls (seekFromHover shortClip) = [SetCurrentTime 0; Play] /\
  Qmin ((5 # 1000) * (99 # 100)) ((5 # 1000) - (1 # 100)) == - (5 # 1000) /\
  ~ 0 == Qmin ((5 # 1000) * (99 # 100)) ((5 # 1000) - (1 # 100)).
Proof.
  split; [reflexivity|].
  split; [vm_compute; reflexivity|].
  split; [reflexivity|].
  split; [vm_compute; reflexivity|].
  split; [vm_compute; reflexivity|].
  vm_compute. discriminate.
Qed.

(** ** C3: the hover tolerance *)

Section DoubleProjection.
Import PrimFloat.

Lemma handlePointerMove_scan (props : Double.Props) (e : Double.PointerEvent)
      (st : Double.State) (p : Double.SVGPath) :
  Double.pathRef st = Some p ->
  Double.hoverLen (Double.handlePointerMove props e st)
  = let best := Double.scan p (Double.pathLen st)
                  (Double.clientX e - Double.rectLeft e)
                  (Double.clientY e - Double.rectTop e) in
    if (sqrt (Double.bestDist2 best) <=? Double.HOVER_TOL props)%float
    then Some (Double.bestLen best) else None.
Proof.
  intro Hp. unfold Double.handlePointerMove. rewrite Hp. cbv zeta.
  unfold Double.near. destruct (_ <=? _)%float; reflexivity.
Qed.

Lemma forall_indices (P : nat -> bool) :
  forallb P indices = true -> forall i, (i <= 480)%nat -> P i = true.
Proof.
  intros H i Hi. rewrite forallb_forall in H. apply H.
  unfold indices, samples. apply in_seq. lia.
Qed.

(** C3, as amended.  With the path mounted, pointer-move sets a non-null
    hover location exactly when the square root, computed in double
    precision, of the least squared distance [dx * dx + dy * dy] between the
    pointer and a sampled point of the path, computed in double precision as
    well, is at most [max(barWidth, 24)]: a computed distance of exactly the
    tolerance matches, a larger one does not, and the tolerance is at least
    24 whatever number [barWidth] is. *)
Theorem hover_iff_computed_near (props : Double.Props)
        (e : Double.PointerEvent) (st : Double.State) (p : Double.SVGPath) :
  Double.pathRef st = Some p ->
  let x := (Double.clientX e - Double.rectLeft e)%float in
  let y := (Double.clientY e - Double.rectTop e)%float in
  let d2 := fun i =>
    Double.squaredDistance x y
      (Double.getPointAtLength p (Double.sampleLen (Double.pathLen st) i)) in
  let tol := Double.Math_max (Double.barWidth props) 24 in
  let hover := Double.hoverLen (Double.handlePointerMove props e st) in
  exists m : float,
    (m = infinity \/ exists i, (i <= 480)%nat /\ m = d2 i) /\
    (forall j, (j <= 480)%nat -> (d2 j <? m)%float = false) /\
    (hover <> None <-> (sqrt m <=? tol)%float = true) /\
    (sqrt m = tol -> Double.isNaN tol = false -> hover <> None) /\
    ((tol <? sqrt m)%float = true -> hover = None) /\
    (Double.isNaN (Double.barWidth props) = false ->
     (24 <=? tol)%float = true).
Proof.
  intros Hp x y d2 tol hover.
  assert (Hh : forall m l,
             Double.scan p (Double.pathLen st) x y = Double.mkBest l m ->
             (hover <> None <-> (sqrt m <=? tol)%float = true) /\
             (sqrt m = tol -> Double.isNaN tol = false -> hover <> None) /\
             ((tol <? sqrt m)%float = true -> hover = None) /\
             (Double.isNaN (Double.barWidth props) = false ->
              (24 <=? tol)%float = true)).
  { intros m l E.
    assert (Eh : hover = if (sqrt m <=? tol)%float then Some l else None).
    { unfold hover. rewrite (handlePointerMove_scan props e st p Hp).
      fold x y. cbv zeta. rewrite E. reflexivity. }
    split; [|split; [|split]].
    - rewrite Eh. destruct (sqrt m <=? tol)%float; split; congruence.
    - intros Es Hn. rewrite Eh, Es, (leb_refl tol Hn). discriminate.
    - intro Hlt. rewrite Eh, (ltb_leb _ _ Hlt). reflexivity.
    - intro Hn. apply Math_max_ge; [exact Hn|reflexivity]. }
  destruct (scan_first_least p (Double.pathLen st) x y)
    as [(E & H)|(i & Hi & E & H1 & _)].
  - exists infinity. split; [now left|]. split; [exact H|].
    exact (Hh _ _ E).
  - exists (d2 i). split; [right; now exists i|]. split; [exact H1|].
    exact (Hh _ _ E).
Qed.

Lemma hover_iff_computed_near_witness :
  let x := (Double.clientX Double.ev_start
            - Double.rectLeft Double.ev_start)%float in
  let y := (Double.clientY Double.ev_start
            - Double.rectTop Double.ev_start)%float in
  let d2 := fun i =>
    Double.squaredDistance x y
      (Double.getPointAtLength Double.squareTrack
         (Double.sampleLen (Double.pathLen Double.measured) i)) in
  let tol := Double.Math_max (Double.barWidth Double.squareProps) 24 in
  let hover := Double.hoverLen
                 (Double.handlePointerMove Double.squareProps Double.ev_start
                    Double.measured) in
  exists m : float,
    (m = infinity \/ exists i, (i <= 480)%nat /\ m = d2 i) /\
    (forall j, (j <= 480)%nat -> (d2 j <? m)%float = false) /\
    (hover <> None <-> (sqrt m <=? tol)%float = true) /\
    (sqrt m = tol -> Double.isNaN tol = false -> hover <> None) /\
    ((tol <? sqrt m)%float = true -> hover = None) /\
    (Double.isNaN (Double.barWidth Double.squareProps) = false ->
     (24 <=? tol)%float = true).
Proof.
  exact (hover_iff_computed_near Double.squareProps Double.ev_start
           Double.measured Double.squareTrack eq_refl).
Defined.

(** C3 fails as stated.  On the measured square track with the tolerance 24,
    the pointer 24 below the start of the track and [2^-30] to its right is
    strictly farther than 24 from every sampled point: the squared distance
    to each exceeds [24 * 24].  The handler computes the squared distance
    [576] to the first sample, whose root is [24], and sets the hover
    location. *)
Lemma hover_beyond_tolerance :
  let x := (Double.clientX Double.ev_below
            - Double.rectLeft Double.ev_below)%float in
  let y := (Double.clientY Double.ev_below
            - Double.rectTop Double.ev_below)%float in
  Double.pathLen Double.measured = 1328%float /\
  Double.Math_max (Double.barWidth Double.squareProps) 24 = 24%float /\
  (forall i, (i <= 480)%nat ->
     exists q,
       Double.exactDist2 x y
         (Double.getPointAtLength Double.squareTrack
            (Double.sampleLen 1328 i)) = Some q /\
       24 * 24 < q) /\
  Double.squaredDistance x y
    (Double.getPointAtLength Double.squareTrack (Double.sampleLen 1328 0))
  = 576%float /\
  sqrt 576 = 24%float /\
  Double.hoverLen (Double.handlePointerMove Double.squareProps Double.ev_below
                     Double.measured) = Some 0%float.
Proof.
  cbv zeta.
  split; [reflexivity|].
  split; [vm_compute; reflexivity|].
  split.
  - intros i Hi.
    pose proof (forall_indices
      (fun i =>
         match Double.exactDist2
                 (Double.clientX Double.ev_below
                  - Double.rectLeft Double.ev_below)%float
                 (Double.clientY Double.ev_below
                  - Double.rectTop Double.ev_below)%float
                 (Double.getPointAtLength Double.squareTrack
                    (Double.sampleLen 1328 i)) with
         | Some q => Qlt_bool (24 * 24) q
         | None => false
         end)) as H.
    cbv beta in H. specialize (H ltac:(vm_compute; reflexivity) i Hi).
    destruct (Double.exactDist2 _ _ _) as [q|]; [|discriminate H].
    exists q. split; [reflexivity|]. now apply Qlt_bool_iff.
  - split; [vm_compute; reflexivity|].
    split; [vm_compute; reflexivity|].
    vm_compute. reflexivity.
Qed.

(** ** C7: determinism and the tie-break *)




End DoubleProjection.

(** ** C9: the range of the hover location *)




(** ** C4: the built path *)

Lemma pad_ge_2 (p : Props) : 0 <= barWidth p -> 2 <= pad p.
Proof.
  intro H. unfold pad, ceil.
  pose proof (Qle_ceiling (barWidth p / 2)) as Hc.
  assert (0 <= barWidth p / 2) by (apply Qle_shift_div_l; lra).
  lra.
Qed.

(** C4, as amended.  For [radius >= 0], [barWidth >= 0] and a size of at
    least the padding, the built path is closed: it starts and ends at the
    top-midpoint [(pad + w/2, pad)], with [pad = ceil(barWidth/2) + 2] and
    [w = size - 2*pad]; its arcs have radius [min(radius, w/2, h/2)]; and
    every coordinate of the path lies in [[0, size] x [0, size]]. *)
Theorem path_closed_in_box (p : Props) :
  0 <= radius p ->
  0 <= barWidth p ->
  pad p <= size p ->
  pad p = inject_Z (Qceiling (barWidth p / 2)) + 2 /\
  path_w p = size p - pad p * 2 /\
  path_start (d p) = Some (mkPoint (pad p + path_w p / 2) (pad p)) /\
  path_end (d p) = path_start (d p) /\
  (forall c rx ry, In c (d p) -> cmd_radii c = Some (rx, ry) ->
     rx = Qmin (radius p) (Qmin (path_w p / 2) (path_h p / 2)) /\ ry = rx) /\
  Forall (in_box (size p)) (path_points (d p)).
Proof.
  intros Hr Hb Hs.
  split; [reflexivity|]. split; [reflexivity|].
  split; [reflexivity|]. split; [reflexivity|]. split.
  - intros c rx ry Hin Hc. unfold d in Hin. cbv zeta in Hin.
    cbn [In] in Hin.
    repeat (destruct Hin as [<-|Hin]; [cbn in Hc; try discriminate Hc;
                                       injection Hc as <- <-;
                                       split; reflexivity|]).
    destruct Hin.
  - pose proof (pad_ge_2 p Hb) as Hp.
    assert (Hw : path_w p == size p - pad p * 2) by reflexivity.
    assert (Hh : path_h p == size p - pad p * 2) by reflexivity.
    assert (Hm : Qmin (path_w p / 2) (path_h p / 2) == path_w p / 2).
    { destruct (Qmin_cases (path_w p / 2) (path_h p / 2)) as [[_ ->]|[_ ->]];
        reflexivity. }
    assert (Hr1 : path_r p <= path_w p / 2).
    { unfold path_r.
      destruct (Qmin_cases (radius p) (Qmin (path_w p / 2) (path_h p / 2)))
        as [[H ->]|[H ->]]; lra. }
    assert (Hr2 : 0 <= path_r p \/ path_r p == path_w p / 2).
    { unfold path_r.
      destruct (Qmin_cases (radius p) (Qmin (path_w p / 2) (path_h p / 2)))
        as [[H ->]|[H ->]]; [left; exact Hr|right; exact Hm]. }
    assert (Hhalf : path_w p / 2 == size p * (1 # 2) - pad p).
    { rewrite Hw. field. }
    assert (Hhalf' : path_h p / 2 == size p * (1 # 2) - pad p).
    { rewrite Hh. field. }
    unfold d, path_points. cbv zeta. cbn [map cmd_point].
    unfold path_x0, path_y0.
    repeat (apply Forall_cons; [unfold in_box; cbn [px py];
                                destruct Hr2; repeat split; lra|]).
    apply Forall_nil.
Qed.

Lemma path_closed_in_box_witness :
  pad (defaultProps "") = inject_Z (Qceiling (barWidth (defaultProps "") / 2)) + 2 /\
  path_w (defaultProps "") = size (defaultProps "") - pad (defaultProps "") * 2 /\
  path_start (d (defaultProps ""))
  = Some (mkPoint (pad (defaultProps "") + path_w (defaultProps "") / 2)
                  (pad (defaultProps ""))) /\
  path_end (d (defaultProps "")) = path_start (d (defaultProps "")) /\
  (forall c rx ry, In c (d (defaultProps "")) -> cmd_radii c = Some (rx, ry) ->
     rx = Qmin (radius (defaultProps ""))
               (Qmin (path_w (defaultProps "") / 2) (path_h (defaultProps "") / 2))
     /\ ry = rx) /\
  Forall (in_box (size (defaultProps ""))) (path_points (d (defaultProps ""))).
Proof.
  apply (path_closed_in_box (defaultProps "")).
  - vm_compute. discriminate.
  - vm_compute. discriminate.
  - vm_compute. discriminate.
Defined.

(** C4 fails as stated when the size is below the padding: for [size = 10],
    [radius = 50], [barWidth = 24] the padding is 14, the start point is
    [(5, 14)] and the path reaches [x = -4], outside [[0, 10] x [0, 10]]. *)
Lemma path_outside_box :
  0 <= radius smallProps /\ 0 <= barWidth smallProps /\
  path_start (d smallProps) = Some (mkPoint (10 # 2) 14) /\
  In (mkPoint (-4) (10 # 2)) (path_points (d smallProps)) /\
  ~ Forall (in_box (size smallProps)) (path_points (d smallProps)).
Proof.
  assert (Hin : In (mkPoint (-4) (10 # 2)) (path_points (d smallProps))).
  { vm_compute. right. right. now left. }
  split; [vm_compute; discriminate|].
  split; [vm_compute; discriminate|].
  split; [vm_compute; reflexivity|].
  split; [exact Hin|].
  intro H.
  pose proof (proj1 (Forall_forall _ _) H _ Hin) as [[H' _] _].
  vm_compute in H'. now apply H'.
Qed.

(** ** C5: the samples *)




(** ** C6: the progress ratio *)

(** C6, as amended.  The progress ratio is [current / duration] when the
    duration is positive and 0 when it is 0; it lies in [[0, 1]] whenever
    [0 <= current <= duration].  (For the duration [+Infinity] it is 0.) *)
Theorem progress_ratio (st : State) :
  (forall d, duration st = Fin d -> 0 < d -> progress st = current st / d) /\
  (forall d, duration st = Fin d -> d == 0 -> progress st = 0) /\
  (0 <= current st -> num_le (Fin (current st)) (duration st) ->
   0 <= progress st <= 1) /\
  (duration st = PInf -> progress st = 0).
Proof.
  unfold progress. split; [|split; [|split]].
  - intros d -> Hd. cbn [num_pos].
    assert (E : Qlt_bool 0 d = true) by now apply Qlt_bool_iff.
    now rewrite E.
  - intros d -> Hd. cbn [num_pos].
    assert (E : Qlt_bool 0 d = false) by (apply Qlt_bool_false_iff; lra).
    now rewrite E.
  - intros H0 H1. destruct (duration st) as [d| | |]; cbn [num_pos num_le] in *;
      try lra; try contradiction.
    destruct (Qlt_bool 0 d) eqn:E; [|lra].
    apply Qlt_bool_iff in E. split.
    + apply Qle_shift_div_l; lra.
    + apply Qle_shift_div_r; lra.
  - intros ->. reflexivity.
Qed.

Lemma progress_ratio_witness :
  progress quarterPlayed = current quarterPlayed / 100 /\
  0 <= progress quarterPlayed <= 1.
Proof.
  pose proof (progress_ratio quarterPlayed) as (H1 & _ & H3 & _).
  split.
  - apply H1; [reflexivity|vm_compute; reflexivity].
  - apply H3; vm_compute; discriminate.
Defined.

(** C6 fails as stated: the ratio is not clamped.  When the metadata announce
    a duration of 1 and a later time update reports 2, the progress is 2. *)
Lemma progress_above_one :
  duration overrun = Fin 1 /\ current overrun = 2 /\
  progress overrun == 2 /\ ~ (0 <= progress overrun <= 1).
Proof.
  split; [reflexivity|]. split; [reflexivity|].
  split; [vm_compute; reflexivity|].
  intros [_ H]. vm_compute in H. now apply H.
Qed.

(** ** C8: the progress stroke *)

Section DoubleStroke.
Import PrimFloat.

Lemma Double_toFixed2_finite (x : float) (q : Q) :
  Double.F2Q x = Some q ->
  Qabs q < fixed_limit ->
  Double.toFixed2 x = Some (fixed_string (toFixed2_digits q)).
Proof.
  intros E H. unfold Double.toFixed2. rewrite E.
  unfold Double.F2Q in E.
  destruct (FloatOps.Prim2SF x); try discriminate E;
    unfold toFixed2; apply Qlt_bool_iff in H; rewrite H; reflexivity.
Qed.

(** C8, as amended.  The progress stroke descriptor is the text of two
    numbers with two decimals, [a.toFixed(2) + " " + b.toFixed(2)], for the
    doubles [a = progress * totalLength] and [b = totalLength] (both finite
    and below [1e21]): each printed number is the multiple of 0.01 nearest to
    the exact value of the double, within 0.005 of it.  With
    [duration = 100] and [currentTime = 25] the progress is 0.25. *)
Theorem redDash_rounds (st : Double.State) (a b : Q) :
  Double.F2Q (Double.progress st * Double.pathLen st)%float = Some a ->
  Double.F2Q (Double.pathLen st) = Some b ->
  Qabs a < fixed_limit ->
  Qabs b < fixed_limit ->
  Double.redDash st
  = Some (fixed_string (toFixed2_digits a) ++ " " ++
          fixed_string (toFixed2_digits b))%string /\
  Qabs (fixed_value (toFixed2_digits a) - a) <= 1 # 200 /\
  Qabs (fixed_value (toFixed2_digits b) - b) <= 1 # 200 /\
  (Double.duration st = 100%float -> Double.current st = 25%float ->
   Double.progress st = 0.25%float).
Proof.
  intros Ea Eb Ha Hb.
  split.
  - unfold Double.redDash.
    rewrite (Double_toFixed2_finite _ a Ea Ha),
            (Double_toFixed2_finite _ b Eb Hb).
    reflexivity.
  - split; [apply toFixed2_close|].
    split; [apply toFixed2_close|].
    intros Hd Hc. unfold Double.progress. rewrite Hd, Hc. reflexivity.
Qed.

Lemma redDash_rounds_witness :
  Double.redDash Double.quarterPlayed = Some "332.00 1328.00"%string /\
  Double.progress Double.quarterPlayed = 0.25%float.
Proof.
  edestruct (redDash_rounds Double.quarterPlayed) as (H1 & _ & _ & H4).
  - vm_compute. reflexivity.
  - vm_compute. reflexivity.
  - vm_compute. reflexivity.
  - vm_compute. reflexivity.
  - split.
    + rewrite H1. vm_compute. reflexivity.
    + apply H4; reflexivity.
Defined.

(** C8 fails as stated: the descriptor holds rounded numbers.  At a third of
    the track of length 1328 it is ["442.67 1328.00"], and 442.67 is not the
    product [progress * totalLength]; 3 s into a medium of 640 s it is
    ["6.22 1328.00"], the product being a double just below 6.225. *)
Lemma redDash_is_rounded :
  Double.duration Double.thirdPlayed = 3%float /\
  Double.current Double.thirdPlayed = 1%float /\
  Double.pathLen Double.thirdPlayed = 1328%float /\
  Double.redDash Double.thirdPlayed = Some "442.67 1328.00"%string /\
  (exists a,
     Double.F2Q (Double.progress Double.thirdPlayed
                 * Double.pathLen Double.thirdPlayed)%float = Some a /\
     ~ a == 44267 # 100) /\
  Double.duration Double.earlyPlayed = 640%float /\
  Double.current Double.earlyPlayed = 3%float /\
  Double.pathLen Double.earlyPlayed = 1328%float /\
  Double.redDash Double.earlyPlayed = Some "6.22 1328.00"%string /\
  (exists a,
     Double.F2Q (Double.progress Double.earlyPlayed
                 * Double.pathLen Double.earlyPlayed)%float = Some a /\
     a < 6225 # 1000).
Proof.
  split; [reflexivity|].
  split; [reflexivity|].
  split; [reflexivity|].
  split; [vm_compute; reflexivity|].
  split.
  - eexists. split; [vm_compute; reflexivity|]. vm_compute. discriminate.
  - split; [reflexivity|].
    split; [reflexivity|].
    split; [reflexivity|].
    split; [vm_compute; reflexivity|].
    eexists. split; [vm_compute; reflexivity|]. vm_compute. reflexivity.
Qed.

End DoubleStroke.

(** ** C10: the lower clamp *)

(** C10, the code at the failing input.  On a path of length 0 (size 28,
    stroke 24) the pointer on the track gets the hover location 0; with the
    metadata of a 10 s medium loaded, pointer-down computes the quotient
    [0 / 0], which is [NaN], and so is the time [Math.max(0, ...)]; assigning
    it throws before [play()] is called: no time is assigned. *)
Theorem seek_on_empty_track :
  pathLen emptyHovered = 0 /\
  hoverLen emptyHovered = Some (sampleLen 0 0) /\
  sampleLen 0 0 == 0 /\
  duration emptyHovered = Fin 10 /\
  seekTime (sampleLen 0 0) (pathLen emptyHovered) (duration emptyHovered) = NaN /\
  calls (seekFromHover emptyHovered) = [] /\
  threw (seekFromHover emptyHovered) = true /\
  ~ (exists t, In (SetCurrentTime t) (calls (seekFromHover emptyHovered))
               /\ 0 <= t).
Proof.
  assert (H : calls (seekFromHover emptyHovered) = []) by (vm_compute; reflexivity).
  split; [vm_compute; reflexivity|].
  split; [vm_compute; reflexivity|].
  split; [vm_compute; reflexivity|].
  split; [vm_compute; reflexivity|].
  split; [vm_compute; reflexivity|].
  split; [exact H|].
  split; [vm_compute; reflexivity|].
  intros (t & Hin & _). rewrite H in Hin. destruct Hin.
Qed.

(** * Further properties *)

(** ** Helper facts *)

Lemma seekTime_cases (h L dur : Q) :
  ~ dur == 0 ->
  (h == 0 /\ L == 0 /\ seekTime h L (Fin dur) = NaN) \/
  (~ (h == 0 /\ L == 0) /\
   exists t, seekTime h L (Fin dur) = Fin t /\ 0 <= t /\
             (0 < dur -> t < dur /\ ((1 # 100) <= dur -> t <= dur - (1 # 100)))).
Proof.
  intros Hd.
  assert (Edur : Qeq_bool dur 0 = false) by now apply Qeq_bool_false_iff.
  assert (Hmax : forall q, 0 <= Qmax 0 q /\
                           (0 < dur -> q <= dur - (1 # 100) ->
                            Qmax 0 q < dur /\
                            ((1 # 100) <= dur -> Qmax 0 q <= dur - (1 # 100)))).
  { intro q. destruct (Qmax_cases 0 q) as [[H ->]|[H ->]];
      (split; [lra|]); intros; split; intros; lra. }
  unfold seekTime, num_div.
  destruct (Qeq_bool L 0) eqn:EL.
  - apply Qeq_bool_iff in EL.
    destruct (Qeq_bool h 0) eqn:Eh.
    + apply Qeq_bool_iff in Eh. left. repeat split; assumption.
    + right. apply Qeq_bool_false_iff in Eh.
      split; [intros [H _]; contradiction|].
      destruct (Qlt_bool 0 h); cbn [num_mul num_sub]; rewrite Edur;
        destruct (Qlt_bool 0 dur) eqn:Ep; cbn [num_min num_max].
      * exists (Qmax 0 (dur - (1 # 100))). split; [reflexivity|].
        destruct (Hmax (dur - (1 # 100))) as [H0 H1].
        split; [exact H0|]. intro. apply H1; lra.
      * exists 0. split; [reflexivity|]. split; [lra|].
        intro H. apply Qlt_bool_false_iff in Ep. lra.
      * exists 0. split; [reflexivity|]. split; [lra|].
        intro H. split; [exact H|]. intro. lra.
      * exists (Qmax 0 (dur - (1 # 100))). split; [reflexivity|].
        destruct (Hmax (dur - (1 # 100))) as [H0 H1].
        split; [exact H0|]. intro. apply H1; lra.
  - right. apply Qeq_bool_false_iff in EL.
    split; [intros [_ H]; contradiction|].
    cbn [num_mul num_sub num_min num_max].
    exists (Qmax 0 (Qmin (dur * (h / L)) (dur - (1 # 100)))).
    split; [reflexivity|].
    destruct (Hmax (Qmin (dur * (h / L)) (dur - (1 # 100)))) as [H0 H1].
    split; [exact H0|]. intro. apply H1; [assumption|].
    destruct (Qmin_cases (dur * (h / L)) (dur - (1 # 100))) as [[H2 ->]|[H2 ->]]; lra.
Qed.

Lemma seekTime_nonneg (h L : Q) (dur : num) (t : Q) :
  seekTime h L dur = Fin t -> 0 <= t.
Proof.
  unfold seekTime.
  destruct (num_min (num_mul dur (num_div h L)) (num_sub dur (1 # 100)))
    as [q| | |]; cbn [num_max]; intro H; try discriminate H;
    injection H as <-; [|lra].
  destruct (Qmax_cases 0 q) as [[H ->]|[H ->]]; lra.
Qed.

(** On an unbounded medium, with a hover location and a path length that are
    not negative, the time is never finite. *)
Lemma seekTime_infinite (h L : Q) :
  0 <= h -> 0 <= L -> forall t, seekTime h L PInf <> Fin t.
Proof.
  intros Hh HL t. unfold seekTime, num_div.
  destruct (Qeq_bool L 0) eqn:EL.
  - destruct (Qeq_bool h 0) eqn:Eh; [discriminate|].
    apply Qeq_bool_false_iff in Eh.
    assert (E : Qlt_bool 0 h = true) by (apply Qlt_bool_iff; lra).
    rewrite E. discriminate.
  - apply Qeq_bool_false_iff in EL.
    assert (Hq : 0 <= h / L) by (apply Qle_shift_div_l; lra).
    cbn [num_mul]. destruct (Qeq_bool (h / L) 0) eqn:E0; [discriminate|].
    apply Qeq_bool_false_iff in E0.
    assert (E : Qlt_bool 0 (h / L) = true) by (apply Qlt_bool_iff; lra).
    rewrite E. discriminate.
Qed.

Lemma seekTime_bounds (h L : Q) (dur : num) (t : Q) :
  num_falsy dur = false ->
  seekTime h L dur = Fin t ->
  num_lt (Fin 0) dur ->
  num_lt (Fin t) dur /\
  (num_le (Fin (1 # 100)) dur -> num_le (Fin t) (num_sub dur (1 # 100))).
Proof.
  intros Hf Ht Hpos. destruct dur as [d| | |]; cbn [num_lt] in Hpos;
    try contradiction.
  - apply num_falsy_Fin in Hf.
    destruct (seekTime_cases h L d Hf) as [(_ & _ & E)|(_ & t' & E & _ & H)];
      [congruence|].
    assert (t' = t) by congruence. subst t'.
    destruct (H Hpos) as [H1 H2]. cbn [num_lt num_le num_sub]. split; assumption.
  - cbn [num_lt num_le num_sub]. split; [exact I|]. intros _. exact I.
Qed.

Lemma run_refs (props : Props) (evs : list Event) (st : State) (p : SVGPath) :
  pathRef st = Some p ->
  pathLen st = 1 \/ pathLen st = getTotalLength p ->
  pathRef (run props evs st) = Some p /\
  (pathLen (run props evs st) = 1 \/
   pathLen (run props evs st) = getTotalLength p).
Proof.
  unfold run. revert st.
  induction evs as [|ev evs IH]; intros st Hp HL; [now split|].
  cbn [fold_left].
  destruct (step_refs props st ev p Hp) as [Hp' [E|E]].
  - apply IH; [exact Hp'|]. now rewrite E.
  - apply IH; [exact Hp'|]. now right.
Qed.

Lemma seekFromHover_cases (st : State) :
  seekFromHover st = noop st \/
  (exists h t, hoverLen st = Some h /\ videoRef st = true /\
               num_falsy (duration st) = false /\
               seekTime h (pathLen st) (duration st) = Fin t /\
               seekFromHover st =
                 mkOutcome (setIsPlaying true st) [SetCurrentTime t; Play] false) \/
  (exists h, hoverLen st = Some h /\ videoRef st = true /\
             num_falsy (duration st) = false /\
             (forall t, seekTime h (pathLen st) (duration st) <> Fin t) /\
             seekFromHover st = mkOutcome st [] true).
Proof.
  unfold seekFromHover.
  destruct (hoverLen st) as [h|]; [|now left].
  destruct (videoRef st); cbn [negb orb]; [|now left].
  destruct (num_falsy (duration st)) eqn:Ed; [now left|].
  destruct (seekTime h (pathLen st) (duration st)) as [t| | |] eqn:E.
  - right. left. exists h, t. repeat split; exact E.
  - right. right. exists h. repeat split. intro t. rewrite E. discriminate.
  - right. right. exists h. repeat split. intro t. rewrite E. discriminate.
  - right. right. exists h. repeat split. intro t. rewrite E. discriminate.
Qed.

(** The duration cell holds a finite number as long as no loadedmetadata
    event reports an infinite one. *)
Lemma step_duration_finite (props : Props) (st : State) (ev : Event) :
  match ev with Loaded v => v <> PInf /\ v <> NInf | _ => True end ->
  (exists d, duration st = Fin d) ->
  exists d, duration (step props st ev) = Fin d.
Proof.
  intros Hev Hd. destruct ev; cbn [step]; try exact Hd.
  - unfold measure. destruct (pathRef st); exact Hd.
  - cbn. unfold num_or_zero. destruct Hev as [H1 H2].
    destruct vduration as [q| | |]; cbn [num_falsy]; try contradiction.
    + destruct (Qeq_bool q 0); eauto.
    + eauto.
  - unfold handlePointerMove. destruct (pathRef st); [|exact Hd].
    cbv zeta. destruct (near _ _); exact Hd.
  - destruct (seekFromHover_cases st)
      as [E|[(h & t & _ & _ & _ & _ & E)|(h & _ & _ & _ & _ & E)]];
      rewrite E; exact Hd.
  - unfold togglePlay. destruct (negb (videoRef st)); [exact Hd|].
    destruct (isPlaying st); exact Hd.
  - unfold replay. destruct (negb (videoRef st)); exact Hd.
Qed.

Lemma run_duration_finite (props : Props) (evs : list Event) (st : State) :
  Forall (fun ev => match ev with
                    | Loaded v => v <> PInf /\ v <> NInf
                    | _ => True
                    end) evs ->
  (exists d, duration st = Fin d) ->
  exists d, duration (run props evs st) = Fin d.
Proof.
  intros Hall. revert st. unfold run.
  induction Hall as [|ev evs Hev _ IH]; intros st Hd; [exact Hd|].
  cbn [fold_left]. apply IH. now apply step_duration_finite.
Qed.

(** ** Pointer-down: errors and bounds *)

(** X1.  In a state whose hover location and path length are not negative,
    as in every state a player reaches, pointer-down throws exactly when the
    video element is mounted, a hover location [h] is set and either the
    duration is finite and not 0 while [h] and the path length are both 0,
    or the duration is [+Infinity]; when it throws it has made no call and
    changed no state. *)
Theorem pointer_down_throws_iff (st : State) :
  (forall h, hoverLen st = Some h -> 0 <= h) ->
  0 <= pathLen st ->
  duration st <> NInf ->
  (threw (seekFromHover st) = true <->
   videoRef st = true /\
   exists h, hoverLen st = Some h /\
             ((exists d, duration st = Fin d /\ ~ d == 0 /\
                         h == 0 /\ pathLen st == 0)
              \/ duration st = PInf)) /\
  (threw (seekFromHover st) = true ->
   calls (seekFromHover st) = [] /\ next (seekFromHover st) = st).
Proof.
  intros Hh0 HL Hn.
  assert (Hchar : forall h, hoverLen st = Some h ->
            num_falsy (duration st) = false ->
            ((forall t, seekTime h (pathLen st) (duration st) <> Fin t) <->
             ((exists d, duration st = Fin d /\ ~ d == 0 /\
                         h == 0 /\ pathLen st == 0)
              \/ duration st = PInf))).
  { intros h Hh Hf. specialize (Hh0 h Hh).
    destruct (duration st) as [d| | |] eqn:Ed.
    - apply num_falsy_Fin in Hf.
      destruct (seekTime_cases h (pathLen st) d Hf)
        as [(H1 & H2 & E)|(Hnz & t & E & _)].
      + split.
        * intros _. left. exists d. repeat split; assumption.
        * intros _ t. rewrite E. discriminate.
      + split.
        * intro H. exfalso. exact (H t E).
        * intros [(d' & Ed' & _ & H1 & H2)|H]; [|discriminate H].
          exfalso. apply Hnz. now split.
    - split; [intros _; now right|].
      intros _. now apply seekTime_infinite.
    - contradiction Hn. reflexivity.
    - discriminate Hf. }
  destruct (seekFromHover_cases st)
    as [E|[(h & t & Hh & Hv & Hf & Ht & E)|(h & Hh & Hv & Hf & Ht & E)]].
  - rewrite E. cbn [threw calls next noop].
    split; [|discriminate]. split; [discriminate|].
    intros (Hv & h & Hh & Hcase). exfalso.
    assert (Hf : num_falsy (duration st) = false).
    { destruct Hcase as [(d & Ed & Hd & _)|Ed]; rewrite Ed;
        [now apply num_falsy_Fin|reflexivity]. }
    unfold seekFromHover in E. rewrite Hh, Hv, Hf in E. cbn [negb orb] in E.
    unfold noop in E.
    destruct (seekTime h (pathLen st) (duration st)); discriminate E.
  - rewrite E. cbn [threw calls next].
    split; [|discriminate]. split; [discriminate|].
    intros (_ & h' & Hh' & Hcase). exfalso.
    assert (h' = h) by congruence. subst h'.
    apply (proj2 (Hchar h Hh Hf)) with (t := t) in Hcase. contradiction.
  - rewrite E. cbn [threw calls next].
    split; [|intros _; now split]. split; [|reflexivity].
    intros _. split; [exact Hv|]. exists h. split; [exact Hh|].
    now apply (Hchar h Hh Hf).
Qed.

Lemma pointer_down_throws_iff_witness :
  threw (seekFromHover emptyHovered) = true /\
  calls (seekFromHover emptyHovered) = [] /\
  next (seekFromHover emptyHovered) = emptyHovered /\
  threw (seekFromHover liveHovered) = true.
Proof.
  assert (H0 : forall st h0,
             hoverLen st = Some h0 -> 0 <= h0 ->
             forall h, hoverLen st = Some h -> 0 <= h).
  { intros st h0 E H h E'. assert (h = h0) by congruence. now subst. }
  destruct (pointer_down_throws_iff emptyHovered) as [H1 H2].
  - apply (H0 _ (sampleLen 0 0)); vm_compute; [reflexivity|discriminate].
  - vm_compute. discriminate.
  - vm_compute. discriminate.
  - assert (Ht : threw (seekFromHover emptyHovered) = true).
    { apply H1. split; [reflexivity|].
      exists (sampleLen 0 0). split; [vm_compute; reflexivity|].
      left. exists 10. split; [vm_compute; reflexivity|].
      split; [vm_compute; discriminate|].
      split; vm_compute; reflexivity. }
    split; [exact Ht|]. split; [exact (proj1 (H2 Ht))|].
    split; [exact (proj2 (H2 Ht))|].
    destruct (pointer_down_throws_iff liveHovered) as [H3 _].
    + apply (H0 _ (159360 # 480)); vm_compute; [reflexivity|discriminate].
    + vm_compute. discriminate.
    + vm_compute. discriminate.
    + apply H3. split; [reflexivity|].
      exists (159360 # 480). split; [vm_compute; reflexivity|].
      right. vm_compute. reflexivity.
Defined.

(** X2.  When the path element reports a length that is not 0 and no
    loadedmetadata event reports an infinite duration, no sequence of events
    brings the player to a state in which pointer-down throws. *)
Theorem pointer_down_never_throws (props : Props) (evs : list Event)
        (p : SVGPath) :
  ~ getTotalLength p == 0 ->
  Forall (fun ev => match ev with
                    | Loaded v => v <> PInf /\ v <> NInf
                    | _ => True
                    end) evs ->
  threw (seekFromHover (run props evs (mounted p))) = false.
Proof.
  intros HL Hall.
  destruct (run_refs props evs (mounted p) p eq_refl (or_introl eq_refl))
    as [_ Hlen].
  destruct (run_duration_finite props evs (mounted p) Hall) as [d Ed];
    [exists 0; reflexivity|].
  destruct (seekFromHover_cases (run props evs (mounted p)))
    as [E|[(h & t & _ & _ & _ & _ & E)|(h & _ & _ & Hf & Ht & _)]];
    try (rewrite E; reflexivity).
  exfalso. rewrite Ed in Hf, Ht. apply num_falsy_Fin in Hf.
  destruct (seekTime_cases h (pathLen (run props evs (mounted p))) d Hf)
    as [(_ & H0 & _)|(_ & t & E & _)]; [|exact (Ht t E)].
  destruct Hlen as [E|E]; rewrite E in H0.
  - discriminate H0.
  - contradiction.
Qed.

Lemma pointer_down_never_throws_witness :
  threw (seekFromHover
           (run squareProps [PointerMove ev_start; Measure; Loaded (Fin 100)]
                (mounted squareTrack))) = false.
Proof.
  apply pointer_down_never_throws.
  - vm_compute. discriminate.
  - repeat constructor; discriminate.
Defined.

(** X3.  A time that pointer-down assigns, on a medium of positive duration,
    is at least 0 and strictly before the end; when the duration is at least
    0.01 it is at most [duration - 0.01]. *)
Theorem seek_lands_before_end (st : State) (t : Q) :
  num_lt (Fin 0) (duration st) ->
  In (SetCurrentTime t) (calls (seekFromHover st)) ->
  0 <= t /\ num_lt (Fin t) (duration st) /\
  (num_le (Fin (1 # 100)) (duration st) ->
   num_le (Fin t) (num_sub (duration st) (1 # 100))).
Proof.
  intros Hd Hin.
  destruct (seekFromHover_cases st)
    as [E|[(h & t' & _ & _ & Hf & Ht & E)|(h & _ & _ & _ & _ & E)]];
    rewrite E in Hin; cbn [calls noop] in Hin; try (now destruct Hin).
  destruct Hin as [Hin|[Hin|[]]]; [|discriminate Hin].
  injection Hin as ->.
  split; [exact (seekTime_nonneg _ _ _ _ Ht)|].
  exact (seekTime_bounds _ _ _ _ Hf Ht Hd).
Qed.

Lemma seek_lands_before_end_witness :
  0 <= (15936000 # 637440) /\
  num_lt (Fin (15936000 # 637440)) (duration sideHovered) /\
  (num_le (Fin (1 # 100)) (duration sideHovered) ->
   num_le (Fin (15936000 # 637440)) (num_sub (duration sideHovered) (1 # 100))).
Proof.
  apply (seek_lands_before_end sideHovered (15936000 # 637440)).
  - vm_compute. reflexivity.
  - vm_compute. left. reflexivity.
Defined.

Lemma calls_of_nonneg (st : State) (ev : Event) (t : Q) :
  In (SetCurrentTime t) (calls_of st ev) -> 0 <= t.
Proof.
  destruct ev; cbn [calls_of]; intros Hin; try (now destruct Hin).
  - destruct (seekFromHover_cases st)
      as [E|[(h & t' & _ & _ & _ & Ht & E)|(h & _ & _ & _ & _ & E)]];
      rewrite E in Hin; cbn [calls noop] in Hin; try (now destruct Hin).
    destruct Hin as [Hin|[Hin|[]]]; [|discriminate Hin]. injection Hin as ->.
    exact (seekTime_nonneg _ _ _ _ Ht).
  - unfold togglePlay, noop in Hin.
    destruct (negb (videoRef st)); [|destruct (isPlaying st)]; cbn [calls] in Hin;
      repeat (destruct Hin as [Hin|Hin]; [discriminate Hin|]);
      destruct Hin.
  - unfold replay, noop in Hin.
    destruct (negb (videoRef st)); cbn [calls] in Hin; [now destruct Hin|].
    destruct Hin as [H|[H|[]]]; [|discriminate H]. injection H as <-. lra.
Qed.

(** X4.  Whatever the events and from whatever state, no call made on the
    video element assigns a negative time. *)
Theorem assigned_times_nonneg (props : Props) (evs : list Event) (st : State)
        (t : Q) :
  In (SetCurrentTime t) (run_calls props evs st) -> 0 <= t.
Proof.
  revert st. induction evs as [|ev evs IH]; intros st; cbn [run_calls].
  - intros [].
  - intro Hin. apply in_app_or in Hin. destruct Hin as [Hin|Hin].
    + exact (calls_of_nonneg st ev t Hin).
    + exact (IH _ Hin).
Qed.

Lemma assigned_times_nonneg_witness : 0 <= (15936000 # 637440).
Proof.
  apply (assigned_times_nonneg squareProps
           [Measure; PointerMove ev_right; Loaded (Fin 100); PointerDown;
            TogglePlay; Replay]
           (mounted squareTrack)).
  vm_compute. left. reflexivity.
Defined.

(** ** Before the metadata *)

Lemma step_duration_zero (props : Props) (st : State) (ev : Event) :
  match ev with Loaded v => num_falsy v = true | _ => True end ->
  (exists d, duration st = Fin d /\ d == 0) ->
  exists d, duration (step props st ev) = Fin d /\ d == 0.
Proof.
  intros Hev Hd. destruct ev; cbn [step]; try exact Hd.
  - unfold measure. destruct (pathRef st); exact Hd.
  - cbn. unfold num_or_zero. rewrite Hev. exists 0. split; reflexivity.
  - unfold handlePointerMove. destruct (pathRef st); [|exact Hd].
    cbv zeta. destruct (near _ _); exact Hd.
  - destruct (seekFromHover_cases st)
      as [E|[(h & t & _ & _ & _ & _ & E)|(h & _ & _ & _ & _ & E)]];
      rewrite E; exact Hd.
  - unfold togglePlay. destruct (negb (videoRef st)); [exact Hd|].
    destruct (isPlaying st); exact Hd.
  - unfold replay. destruct (negb (videoRef st)); exact Hd.
Qed.

(** X5.  Until a loadedmetadata event reports a duration other than 0 or
    [NaN], the duration stays 0, the progress is 0 and pointer-down is a
    no-op, whatever else happens. *)
Theorem no_seek_before_metadata (props : Props) (evs : list Event)
        (p : SVGPath) :
  Forall (fun ev => match ev with
                    | Loaded v => num_falsy v = true
                    | _ => True
                    end) evs ->
  (exists d, duration (run props evs (mounted p)) = Fin d /\ d == 0) /\
  progress (run props evs (mounted p)) = 0 /\
  seekFromHover (run props evs (mounted p))
  = noop (run props evs (mounted p)).
Proof.
  intros Hall.
  assert (Hd : exists d, duration (run props evs (mounted p)) = Fin d /\ d == 0).
  { unfold run.
    assert (H0 : exists d, duration (mounted p) = Fin d /\ d == 0)
      by (exists 0; split; reflexivity).
    revert H0. generalize (mounted p).
    induction Hall as [|ev evs Hev _ IH]; intros st H0; [exact H0|].
    cbn [fold_left]. apply IH. now apply step_duration_zero. }
  split; [exact Hd|]. destruct Hd as (d & Ed & Hd0).
  assert (Hf : num_falsy (duration (run props evs (mounted p))) = true)
    by (rewrite Ed; now apply Qeq_bool_iff).
  split.
  - unfold progress. rewrite Ed. cbn [num_pos].
    assert (E : Qlt_bool 0 d = false) by (apply Qlt_bool_false_iff; lra).
    now rewrite E.
  - destruct (seekFromHover_cases (run props evs (mounted p)))
      as [E|[(h & t & _ & _ & Hf' & _)|(h & _ & _ & Hf' & _)]];
      [exact E|congruence|congruence].
Qed.

Lemma no_seek_before_metadata_witness :
  (exists d,
     duration (run squareProps [Measure; PointerMove ev_right; Loaded NaN; TogglePlay]
                   (mounted squareTrack)) = Fin d /\ d == 0) /\
  progress (run squareProps [Measure; PointerMove ev_right; Loaded NaN; TogglePlay]
                (mounted squareTrack)) = 0 /\
  seekFromHover (run squareProps
                     [Measure; PointerMove ev_right; Loaded NaN; TogglePlay]
                     (mounted squareTrack))
  = noop (run squareProps [Measure; PointerMove ev_right; Loaded NaN; TogglePlay]
              (mounted squareTrack)).
Proof.
  apply no_seek_before_metadata.
  repeat constructor.
Defined.

(** ** Projection: where the hover location falls *)

(** X6.  When the pointer is exactly on the point of sample [k], the hover
    location is set, to the arc length of the first sample lying on that
    point: none of a later index, and for [k = 0], the start of the path,
    the arc length 0. *)
Theorem hover_on_sample (props : Props) (e : PointerEvent) (st : State)
        (p : SVGPath) (k : nat) :
  pathRef st = Some p ->
  (k <= samples)%nat ->
  px (getPointAtLength p (sampleLen (pathLen st) k)) == clientX e - rectLeft e ->
  py (getPointAtLength p (sampleLen (pathLen st) k)) == clientY e - rectTop e ->
  exists i,
    (i <= k)%nat /\
    hoverLen (handlePointerMove props e st) = Some (sampleLen (pathLen st) i) /\
    px (getPointAtLength p (sampleLen (pathLen st) i)) == clientX e - rectLeft e /\
    py (getPointAtLength p (sampleLen (pathLen st) i)) == clientY e - rectTop e /\
    (forall j, (j < i)%nat ->
       ~ (px (getPointAtLength p (sampleLen (pathLen st) j))
          == clientX e - rectLeft e /\
          py (getPointAtLength p (sampleLen (pathLen st) j))
          == clientY e - rectTop e)) /\
    (k = 0%nat -> sampleLen (pathLen st) i == 0).
Proof.
  intros Hp Hk Hx Hy.
  destruct (handlePointerMove_hover props e st p Hp) as (i & (Hr & Hle & Hlt) & E).
  set (x := clientX e - rectLeft e) in *. set (y := clientY e - rectTop e) in *.
  set (L := pathLen st) in *.
  assert (Hk0 : d2_at p L x y k == 0) by (apply dist2_zero_iff; now split).
  assert (Hi0 : d2_at p L x y i == 0).
  { pose proof (Hle k ltac:(lia)). pose proof (dist2_nonneg x y
      (getPointAtLength p (sampleLen L i))). unfold d2_at in *. lra. }
  assert (Hik : (i <= k)%nat).
  { destruct (le_lt_dec i k) as [H|H]; [exact H|].
    pose proof (Hlt k ltac:(lia)). lra. }
  exists i. split; [exact Hik|]. split.
  - rewrite E, sqrt_le_bool_zero; [reflexivity|exact Hi0|].
    pose proof (HOVER_TOL_ge_24 props). lra.
  - apply dist2_zero_iff in Hi0. destruct Hi0 as [Hix Hiy].
    split; [exact Hix|]. split; [exact Hiy|]. split.
    + intros j Hj Hc. apply dist2_zero_iff in Hc.
      pose proof (Hlt j ltac:(lia)) as Hs. fold (d2_at p L x y j) in Hc.
      pose proof (dist2_nonneg x y (getPointAtLength p (sampleLen L i))).
      unfold d2_at in *. lra.
    + intros ->. replace i with 0%nat by lia.
      unfold sampleLen. simpl. field.
Qed.

Lemma hover_on_sample_witness :
  exists i,
    (i <= 120)%nat /\
    hoverLen (handlePointerMove squareProps ev_right quarterPlayed)
    = Some (sampleLen (pathLen quarterPlayed) i) /\
    px (getPointAtLength squareTrack (sampleLen (pathLen quarterPlayed) i))
    == clientX ev_right - rectLeft ev_right /\
    py (getPointAtLength squareTrack (sampleLen (pathLen quarterPlayed) i))
    == clientY ev_right - rectTop ev_right /\
    (forall j, (j < i)%nat ->
       ~ (px (getPointAtLength squareTrack (sampleLen (pathLen quarterPlayed) j))
          == clientX ev_right - rectLeft ev_right /\
          py (getPointAtLength squareTrack (sampleLen (pathLen quarterPlayed) j))
          == clientY ev_right - rectTop ev_right)) /\
    (120%nat = 0%nat -> sampleLen (pathLen quarterPlayed) i == 0).
Proof.
  apply (hover_on_sample squareProps ev_right quarterPlayed squareTrack 120).
  - reflexivity.
  - unfold samples. lia.
  - vm_compute. reflexivity.
  - vm_compute. reflexivity.
Defined.

Lemma dist2_same_point (x y : Q) (a b : Point) :
  px a == px b -> py a == py b -> dist2 x y a == dist2 x y b.
Proof.
  intros Hx Hy. unfold dist2. cbv zeta. rewrite Hx, Hy. reflexivity.
Qed.

Lemma sampleLen_lt (L : Q) (i : nat) :
  (i < samples)%nat -> 0 < L -> 0 <= sampleLen L i < L.
Proof.
  intros Hi HL. unfold sampleLen.
  set (q := inject_Z (Z.of_nat i) / inject_Z (Z.of_nat samples)).
  assert (Hq : 0 <= q < 1).
  { unfold q. change (inject_Z (Z.of_nat samples)) with 480.
    assert (0 <= inject_Z (Z.of_nat i) < 480).
    { split.
      - change 0 with (inject_Z 0). rewrite <- Zle_Qle. lia.
      - change 480 with (inject_Z 480). rewrite <- Zlt_Qlt.
        unfold samples in Hi. lia. }
    split.
    - apply Qle_shift_div_l; lra.
    - apply Qlt_shift_div_r; lra. }
  split; nra.
Qed.

(** X7.  On a closed path, whose last sample lies on the point of the first,
    the hover location is never the last sample: it is [(i/480) * pathLen]
    with [i < 480], so strictly below a positive path length. *)
Theorem hover_below_length (props : Props) (e : PointerEvent) (st : State)
        (p : SVGPath) (h : Q) :
  pathRef st = Some p ->
  px (getPointAtLength p (sampleLen (pathLen st) samples))
  == px (getPointAtLength p (sampleLen (pathLen st) 0)) ->
  py (getPointAtLength p (sampleLen (pathLen st) samples))
  == py (getPointAtLength p (sampleLen (pathLen st) 0)) ->
  hoverLen (handlePointerMove props e st) = Some h ->
  (exists i, (i < 480)%nat /\ h = sampleLen (pathLen st) i) /\
  (0 < pathLen st -> 0 <= h < pathLen st).
Proof.
  intros Hp Hx Hy Hh.
  destruct (handlePointerMove_hover props e st p Hp) as (i & (Hr & Hle & Hlt) & E).
  rewrite E in Hh. destruct (sqrt_le_bool _ _); [|discriminate].
  injection Hh as <-.
  assert (Hi : (i < samples)%nat).
  { destruct (Nat.eq_dec i samples) as [->|Hne]; [|lia].
    exfalso.
    pose proof (Hlt 0%nat ltac:(unfold samples; lia)) as Hs.
    pose proof (dist2_same_point (clientX e - rectLeft e) (clientY e - rectTop e)
                  _ _ Hx Hy) as Hd.
    unfold d2_at in Hs. lra. }
  split.
  - exists i. split; [exact Hi|reflexivity].
  - intro HL. now apply sampleLen_lt.
Qed.

Lemma hover_below_length_witness :
  (exists i, (i < 480)%nat /\
             sampleLen (pathLen quarterPlayed) 0
             = sampleLen (pathLen quarterPlayed) i) /\
  (0 < pathLen quarterPlayed ->
   0 <= sampleLen (pathLen quarterPlayed) 0 < pathLen quarterPlayed).
Proof.
  apply (hover_below_length squareProps ev_start quarterPlayed squareTrack).
  - reflexivity.
  - vm_compute. reflexivity.
  - vm_compute. reflexivity.
  - vm_compute. reflexivity.
Defined.

(** X8.  The closeness test is never tighter than the transparent hit
    stroke: a pointer within half the hit width, [max(barWidth, 28) / 2], of
    a sampled point of the path gets a hover location. *)
Theorem hit_area_within_tolerance (props : Props) (e : PointerEvent)
        (st : State) (p : SVGPath) :
  pathRef st = Some p ->
  (nearestDistance p (pathLen st) (clientX e - rectLeft e)
                   (clientY e - rectTop e) <= Q2R (hitWidth props / 2))%R ->
  hitWidth props / 2 <= HOVER_TOL props /\
  hoverLen (handlePointerMove props e st) <> None.
Proof.
  intros Hp Hd.
  assert (Hle : hitWidth props / 2 <= HOVER_TOL props).
  { unfold hitWidth, HOVER_TOL.
    destruct (Qmax_cases (barWidth props) 28) as [[H1 ->]|[H1 ->]];
      destruct (Qmax_cases (barWidth props) 24) as [[H2 ->]|[H2 ->]];
      apply Qle_shift_div_r; lra. }
  split; [exact Hle|].
  apply (hover_nonnull_iff props e st p Hp).
  apply Qle_Rle in Hle. lra.
Qed.

Lemma nearestDistance_le_sample (p : SVGPath) (L x y : Q) (k : nat) :
  (k <= samples)%nat ->
  (nearestDistance p L x y <= euclid x y (getPointAtLength p (sampleLen L k)))%R.
Proof.
  intros Hk. unfold nearestDistance.
  set (g := fun j => euclid x y (getPointAtLength p (sampleLen L j))).
  change (euclid x y (getPointAtLength p (sampleLen L 0))) with (g 0%nat).
  change (euclid x y (getPointAtLength p (sampleLen L k))) with (g k).
  destruct (Rmin_list_le (map g (seq 1 samples)) (g 0%nat)) as [H0 Hall].
  destruct (Nat.eq_dec k 0) as [->|Hne]; [exact H0|].
  apply Hall. apply in_map. apply in_seq. lia.
Qed.

Lemma Q2R_0 : Q2R 0 = 0%R.
Proof. unfold Q2R. simpl. lra. Qed.

Lemma euclid_zero (x y : Q) (pt : Point) :
  px pt == x -> py pt == y -> euclid x y pt = 0%R.
Proof.
  intros Hx Hy. rewrite euclid_dist2.
  assert (E : dist2 x y pt == 0) by (apply dist2_zero_iff; now split).
  rewrite (Qeq_eqR _ _ E), Q2R_0. apply sqrt_0.
Qed.

Lemma hit_area_within_tolerance_witness :
  hitWidth squareProps / 2 <= HOVER_TOL squareProps /\
  hoverLen (handlePointerMove squareProps ev_right quarterPlayed) <> None.
Proof.
  apply (hit_area_within_tolerance squareProps ev_right quarterPlayed squareTrack).
  - reflexivity.
  - apply Rle_trans
      with (euclid (clientX ev_right - rectLeft ev_right)
                   (clientY ev_right - rectTop ev_right)
                   (getPointAtLength squareTrack
                      (sampleLen (pathLen quarterPlayed) 120))).
    + apply nearestDistance_le_sample. unfold samples. lia.
    + rewrite euclid_zero by (vm_compute; reflexivity).
      rewrite <- Q2R_0. apply Qle_Rle. vm_compute. discriminate.
Defined.

(** ** Invariants of a run *)

(** X10.  In every state a mounted player can reach, a non-null hover
    location lies between 0 and the larger of the initial path length 1 and
    the measured length. *)
Theorem hover_range_reachable (props : Props) (evs : list Event) (p : SVGPath)
        (h : Q) :
  0 <= getTotalLength p ->
  hoverLen (run props evs (mounted p)) = Some h ->
  0 <= h <= Qmax 1 (getTotalLength p).
Proof.
  intros HL.
  set (M := Qmax 1 (getTotalLength p)).
  assert (HM : 1 <= M /\ getTotalLength p <= M).
  { unfold M. destruct (Qmax_cases 1 (getTotalLength p)) as [[H ->]|[H ->]];
      split; lra. }
  assert (Hgen : forall st,
             pathRef st = Some p ->
             pathLen st = 1 \/ pathLen st = getTotalLength p ->
             (forall h, hoverLen st = Some h -> 0 <= h <= M) ->
             forall h, hoverLen (run props evs st) = Some h -> 0 <= h <= M).
  { unfold run. induction evs as [|ev evs IH]; intros st Hp Hlen Hinv;
      [exact Hinv|].
    cbn [fold_left].
    assert (Hrange : 0 <= pathLen st <= M)
      by (destruct Hlen as [-> | ->]; lra).
    destruct (step_refs props st ev p Hp) as [Hp' Hlen'].
    apply IH; [exact Hp'| |].
    - destruct Hlen' as [E|E]; [rewrite E; exact Hlen|now right].
    - exact (step_hover_range props st ev p M Hp Hrange Hinv). }
  apply Hgen; [reflexivity|now left|discriminate].
Qed.

Lemma hover_range_reachable_witness :
  0 <= (159360 # 480) <= Qmax 1 (getTotalLength squareTrack).
Proof.
  apply (hover_range_reachable squareProps
           [Measure; PointerMove ev_right; Loaded (Fin 100)] squareTrack).
  - vm_compute. discriminate.
  - vm_compute. reflexivity.
Defined.

Lemma step_pointer_frame (props : Props) (st : State) (ev : Event) :
  match ev with PointerMove _ | PointerLeave => True | _ => False end ->
  isPlaying (step props st ev) = isPlaying st /\
  duration (step props st ev) = duration st /\
  current (step props st ev) = current st /\
  pathLen (step props st ev) = pathLen st /\
  calls_of st ev = [].
Proof.
  destruct ev; intros H; try contradiction; cbn [step calls_of].
  - unfold handlePointerMove. destruct (pathRef st); [|repeat split].
    cbv zeta. destruct (near _ _); repeat split.
  - repeat split.
Qed.

(** X11.  Moving the pointer over the surface and leaving it never plays,
    pauses or seeks: a sequence of pointer-move and pointer-leave events makes
    no call on the video element and leaves the playing flag, the duration,
    the current time and the path length as they were. *)
Theorem pointer_moves_frame (props : Props) (evs : list Event) (st : State) :
  Forall (fun ev => match ev with
                    | PointerMove _ | PointerLeave => True
                    | _ => False
                    end) evs ->
  run_calls props evs st = [] /\
  isPlaying (run props evs st) = isPlaying st /\
  duration (run props evs st) = duration st /\
  current (run props evs st) = current st /\
  pathLen (run props evs st) = pathLen st.
Proof.
  intros Hall. revert st. unfold run.
  induction Hall as [|ev evs Hev _ IH]; intros st; [repeat split|].
  cbn [run_calls fold_left].
  destruct (step_pointer_frame props st ev Hev) as (E1 & E2 & E3 & E4 & E5).
  destruct (IH (step props st ev)) as (F1 & F2 & F3 & F4 & F5).
  rewrite E5, F1, F2, F3, F4, F5. repeat split; assumption.
Qed.

Lemma pointer_moves_frame_witness :
  run_calls squareProps [PointerMove ev_right; PointerLeave; PointerMove ev_start]
            quarterPlayed = [] /\
  isPlaying (run squareProps [PointerMove ev_right; PointerLeave; PointerMove ev_start]
                 quarterPlayed) = isPlaying quarterPlayed /\
  duration (run squareProps [PointerMove ev_right; PointerLeave; PointerMove ev_start]
                quarterPlayed) = duration quarterPlayed /\
  current (run squareProps [PointerMove ev_right; PointerLeave; PointerMove ev_start]
               quarterPlayed) = current quarterPlayed /\
  pathLen (run squareProps [PointerMove ev_right; PointerLeave; PointerMove ev_start]
               quarterPlayed) = pathLen quarterPlayed.
Proof.
  apply pointer_moves_frame. repeat constructor.
Defined.

(** ** The shape of the path *)

Lemma path_r_le_half (p : Props) : path_r p <= path_w p / 2.
Proof.
  unfold path_r. change (path_h p) with (path_w p).
  destruct (Qmin_cases (path_w p / 2) (path_w p / 2)) as [[_ E]|[_ E]];
    rewrite E;
    destruct (Qmin_cases (radius p) (path_w p / 2)) as [[H ->]|[H ->]]; lra.
Qed.

Lemma path_r_nonneg (p : Props) :
  0 <= radius p -> pad p * 2 <= size p -> 0 <= path_r p.
Proof.
  intros Hr Hs. unfold path_r. change (path_h p) with (path_w p).
  assert (Hw : 0 <= path_w p / 2).
  { unfold path_w, sv. apply Qle_shift_div_l; lra. }
  destruct (Qmin_cases (path_w p / 2) (path_w p / 2)) as [[_ E]|[_ E]];
    rewrite E;
    destruct (Qmin_cases (radius p) (path_w p / 2)) as [[H ->]|[H ->]]; lra.
Qed.

Ltac abs_by_sign :=
  repeat match goal with
         | |- context [Qabs ?e] =>
             first [ rewrite (Qabs_pos e) by lra
                   | rewrite (Qabs_neg e) by lra ]
         end.

(** X12.  For a radius that is not negative and a size of at least twice the
    padding, every straight edge of the path is horizontal or vertical and
    every arc spans exactly its radius [r >= 0] across and along: the eight
    pieces join as quarter circles between axis-parallel edges. *)
Theorem path_segments_fit (p : Props) :
  0 <= radius p ->
  pad p * 2 <= size p ->
  0 <= path_r p /\ Forall segment_fits (path_segments (d p)).
Proof.
  intros Hr Hs.
  pose proof (path_r_nonneg p Hr Hs) as H0.
  split; [exact H0|].
  unfold d. cbv zeta. unfold path_x0, path_y0.
  change (path_h p) with (path_w p).
  cbn [path_segments segments_from cmd_point].
  repeat (apply Forall_cons;
          [unfold segment_fits; cbn [px py];
           first [ right; reflexivity | left; reflexivity
                 | split; abs_by_sign; lra ]|]).
  apply Forall_nil.
Qed.

Lemma path_segments_fit_witness :
  0 <= path_r (defaultProps "") /\
  Forall segment_fits (path_segments (d (defaultProps ""))).
Proof.
  apply path_segments_fit; vm_compute; discriminate.
Defined.

(** X13.  The straight edges of the path add up to [4 * (w - 2 * r)], which
    is never negative: the effective radius leaves room for them on every
    side. *)
Theorem straight_length (p : Props) :
  straightLength (d p) == 4 * (path_w p - 2 * path_r p) /\
  0 <= straightLength (d p).
Proof.
  pose proof (path_r_le_half p) as H1.
  assert (Hhalf : path_w p / 2 == path_w p * (1 # 2)) by field.
  assert (E : straightLength (d p) == 4 * (path_w p - 2 * path_r p)).
  { unfold d. cbv zeta. unfold path_x0, path_y0, straightLength.
    change (path_h p) with (path_w p).
    cbn [path_segments segments_from cmd_point fold_right line_length px py].
    abs_by_sign. lra. }
  split; [exact E|]. rewrite E. lra.
Qed.

(** X14.  The padding keeps the stroke inside the surface: for a radius and
    a stroke width that are not negative and a size of at least twice the
    padding, the padding is at least half the stroke width plus 2 and every
    coordinate of the path is at least the padding away from each border. *)
Theorem stroke_stays_inside (p : Props) :
  0 <= radius p ->
  0 <= barWidth p ->
  pad p * 2 <= size p ->
  barWidth p / 2 + 2 <= pad p /\
  Forall (fun pt => pad p <= px pt <= size p - pad p /\
                    pad p <= py pt <= size p - pad p)
         (path_points (d p)).
Proof.
  intros Hr Hb Hs.
  pose proof (path_r_nonneg p Hr Hs) as H0.
  pose proof (path_r_le_half p) as H1.
  assert (Hw : path_w p == size p - pad p * 2) by reflexivity.
  assert (Hhalf : path_w p / 2 == path_w p * (1 # 2)) by field.
  split.
  - unfold pad, ceil. pose proof (Qle_ceiling (barWidth p / 2)). lra.
  - unfold d, path_points. cbv zeta. unfold path_x0, path_y0.
    change (path_h p) with (path_w p).
    cbn [map cmd_point].
    repeat (apply Forall_cons; [cbn [px py]; repeat split; lra|]).
    apply Forall_nil.
Qed.

Lemma stroke_stays_inside_witness :
  barWidth (defaultProps "") / 2 + 2 <= pad (defaultProps "") /\
  Forall (fun pt => pad (defaultProps "") <= px pt
                    <= size (defaultProps "") - pad (defaultProps "") /\
                    pad (defaultProps "") <= py pt
                    <= size (defaultProps "") - pad (defaultProps ""))
         (path_points (d (defaultProps ""))).
Proof.
  apply stroke_stays_inside; vm_compute; discriminate.
Defined.

(** ** Rounding to two decimals *)

Lemma progress_bounds (st : State) :
  0 <= current st -> num_le (Fin (current st)) (duration st) ->
  0 <= progress st <= 1.
Proof.
  intros H0 H1. unfold progress.
  destruct (duration st) as [d| | |]; cbn [num_pos num_le] in *;
    try lra; try contradiction.
  destruct (Qlt_bool 0 d) eqn:E; [|lra].
  apply Qlt_bool_iff in E. split.
  - apply Qle_shift_div_l; lra.
  - apply Qle_shift_div_r; lra.
Qed.

Lemma toFixed2_nonneg (x : Q) :
  0 <= x ->
  fixed_value (toFixed2_digits x)
  == inject_Z (Qfloor (x * 100 + (1 # 2))) / 100.
Proof.
  intro Hx. unfold fixed_value, toFixed2_digits. cbn [negative hundredths].
  assert (E : Qlt_bool x 0 = false) by (apply Qlt_bool_false_iff; exact Hx).
  rewrite E.
  assert (Ha : Qabs x * 100 + (1 # 2) == x * 100 + (1 # 2))
    by (rewrite Qabs_pos by exact Hx; reflexivity).
  rewrite (Qfloor_comp _ _ Ha). reflexivity.
Qed.

(** X16.  While [0 <= current <= duration] and the path length is not
    negative, the printed dash is not negative and never exceeds the printed
    gap: rounding keeps the order of the two numbers. *)
Theorem dash_le_gap (st : State) :
  0 <= current st ->
  num_le (Fin (current st)) (duration st) ->
  0 <= pathLen st ->
  0 <= fst (redDashValues st) <= snd (redDashValues st).
Proof.
  intros Hc0 Hc HL.
  pose proof (progress_bounds st Hc0 Hc) as [Hp0 Hp1].
  assert (Ha : 0 <= progress st * pathLen st <= pathLen st).
  { split; [apply Qmult_le_0_compat; assumption|].
    assert (H : 0 <= (1 - progress st) * pathLen st)
      by (apply Qmult_le_0_compat; lra).
    assert (E : (1 - progress st) * pathLen st
                == pathLen st - progress st * pathLen st) by ring.
    lra. }
  unfold redDashValues. cbn [fst snd].
  rewrite (toFixed2_nonneg _ (proj1 Ha)), (toFixed2_nonneg _ HL).
  assert (Hf : (0 <= Qfloor (progress st * pathLen st * 100 + (1 # 2))
                <= Qfloor (pathLen st * 100 + (1 # 2)))%Z).
  { split.
    - change 0%Z with (Qfloor 0). apply Qfloor_resp_le. lra.
    - apply Qfloor_resp_le. lra. }
  destruct Hf as [Hf0 Hf1].
  rewrite Zle_Qle in Hf0, Hf1. change (inject_Z 0) with 0 in Hf0.
  split.
  - apply Qle_shift_div_l; lra.
  - apply Qle_shift_div_l; [lra|].
    set (a := inject_Z (Qfloor (progress st * pathLen st * 100 + (1 # 2)))) in *.
    set (b := inject_Z (Qfloor (pathLen st * 100 + (1 # 2)))) in *.
    assert (E : a / 100 * 100 == a) by field. lra.
Qed.

Lemma dash_le_gap_witness :
  0 <= fst (redDashValues thirdPlayed) <= snd (redDashValues thirdPlayed).
Proof.
  apply dash_le_gap.
  - vm_compute. discriminate.
  - vm_compute. discriminate.
  - vm_compute. discriminate.
Defined.

(** ** The hover marker and the end of the medium *)

(** X17.  The dash offset of the hover marker is never negative, and for a
    hover location that pointer-move has just set on a path of length
    [pathLen >= 0] the zero floor does not apply: the offset is
    [pathLen - h + 5], between 5 and [pathLen + 5]. *)
Theorem marker_offset (props : Props) (e : PointerEvent) (st : State)
        (p : SVGPath) (h : Q) :
  pathRef st = Some p ->
  0 <= pathLen st ->
  hoverLen (handlePointerMove props e st) = Some h ->
  yellowOffset (handlePointerMove props e st) == pathLen st - h + 5 /\
  5 <= yellowOffset (handlePointerMove props e st) <= pathLen st + 5 /\
  (forall st', 0 <= yellowOffset st').
Proof.
  intros Hp HL Hh.
  assert (Hrange : 0 <= h <= pathLen st).
  { destruct (handlePointerMove_hover props e st p Hp) as (i & (Hr & _) & E).
    rewrite E in Hh. destruct (sqrt_le_bool _ _); [|discriminate].
    injection Hh as <-. apply sampleLen_range; [lia|exact HL]. }
  assert (HpL : pathLen (handlePointerMove props e st) = pathLen st).
  { unfold handlePointerMove. rewrite Hp. cbv zeta.
    destruct (near _ _); reflexivity. }
  assert (E : yellowOffset (handlePointerMove props e st) == pathLen st - h + 5).
  { unfold yellowOffset, yellowVisible. rewrite Hh, HpL.
    assert (Hy : 10 / 2 == 5) by reflexivity.
    destruct (Qmax_cases (pathLen st - (h - 10 / 2)) 0) as [[H ->]|[H ->]]; lra. }
  split; [exact E|]. split; [rewrite E; lra|].
  intro st'. unfold yellowOffset. destruct (hoverLen st'); [|lra].
  destruct (Qmax_cases (pathLen st' - (q - yellowVisible / 2)) 0)
    as [[H ->]|[H ->]]; lra.
Qed.

Lemma marker_offset_witness :
  yellowOffset (handlePointerMove squareProps ev_right quarterPlayed)
  == pathLen quarterPlayed - (159360 # 480) + 5 /\
  5 <= yellowOffset (handlePointerMove squareProps ev_right quarterPlayed)
  <= pathLen quarterPlayed + 5 /\
  (forall st', 0 <= yellowOffset st').
Proof.
  apply (marker_offset squareProps ev_right quarterPlayed squareTrack).
  - reflexivity.
  - vm_compute. discriminate.
  - vm_compute. reflexivity.
Defined.

Lemma or_zero_eq (x : Q) : or_zero x == x.
Proof.
  unfold or_zero. destruct (Qeq_bool x 0) eqn:E; [|reflexivity].
  apply Qeq_bool_iff in E. now rewrite E.
Qed.



(** ** Seeking along the path *)

Lemma seek_calls_at (st : State) (h d : Q) :
  videoRef st = true ->
  0 < pathLen st ->
  duration st = Fin d ->
  0 < d ->
  seekFromHover (setHoverLen (Some h) st) =
    mkOutcome (setIsPlaying true (setHoverLen (Some h) st))
              [SetCurrentTime
                 (Qmax 0 (Qmin (d * (h / pathLen st)) (d - (1 # 100))));
               Play] false.
Proof.
  intros Hv HL Hdur Hd.
  apply seekFromHover_commit with (h := h).
  - reflexivity.
  - exact Hv.
  - cbn. rewrite Hdur. apply num_falsy_Fin. lra.
  - cbn. rewrite Hdur. apply seekTime_finite. lra.
Qed.

Lemma Qmax_Qmin_mono (a b c : Q) :
  a <= b -> Qmax 0 (Qmin a c) <= Qmax 0 (Qmin b c).
Proof.
  intro H.
  destruct (Qmin_cases a c) as [[H1 E1]|[H1 E1]];
    destruct (Qmin_cases b c) as [[H2 E2]|[H2 E2]];
    rewrite E1, E2;
    match goal with
    | |- Qmax 0 ?u <= Qmax 0 ?v =>
        destruct (Qmax_cases 0 u) as [[H3 E3]|[H3 E3]];
        destruct (Qmax_cases 0 v) as [[H4 E4]|[H4 E4]];
        rewrite E3; rewrite ?E4
    end; lra.
Qed.

(** X19.  Seeking follows the path: on a path of positive length and a
    medium of positive finite duration, a hover location farther along the
    path is never committed to an earlier time, and the hover location 0 is
    committed to the time 0. *)
Theorem seek_monotone (st : State) (h1 h2 d : Q) :
  videoRef st = true ->
  0 < pathLen st ->
  duration st = Fin d ->
  0 < d ->
  h1 <= h2 ->
  exists t1 t2,
    calls (seekFromHover (setHoverLen (Some h1) st)) = [SetCurrentTime t1; Play] /\
    calls (seekFromHover (setHoverLen (Some h2) st)) = [SetCurrentTime t2; Play] /\
    t1 <= t2 /\
    (h1 == 0 -> t1 == 0).
Proof.
  intros Hv HL Hdur Hd Hh.
  exists (Qmax 0 (Qmin (d * (h1 / pathLen st)) (d - (1 # 100)))),
         (Qmax 0 (Qmin (d * (h2 / pathLen st)) (d - (1 # 100)))).
  rewrite !(seek_calls_at st _ d) by assumption. cbn [calls].
  split; [reflexivity|]. split; [reflexivity|].
  assert (Hq : h1 / pathLen st <= h2 / pathLen st).
  { apply Qle_shift_div_l; [exact HL|].
    assert (E : h1 / pathLen st * pathLen st == h1) by (field; lra). lra. }
  split.
  - apply Qmax_Qmin_mono.
    assert (H : 0 <= d * (h2 / pathLen st - h1 / pathLen st))
      by (apply Qmult_le_0_compat; lra).
    assert (E : d * (h2 / pathLen st - h1 / pathLen st)
                == d * (h2 / pathLen st) - d * (h1 / pathLen st)) by ring.
    lra.
  - intro H0.
    assert (E : d * (h1 / pathLen st) == 0)
      by (rewrite H0; field; lra).
    destruct (Qmin_cases (d * (h1 / pathLen st)) (d - (1 # 100)))
      as [[H1 ->]|[H1 ->]];
      match goal with
      | |- Qmax 0 ?u == 0 => destruct (Qmax_cases 0 u) as [[H3 ->]|[H3 ->]]
      end; lra.
Qed.

Lemma seek_monotone_witness :
  exists t1 t2,
    calls (seekFromHover (setHoverLen (Some 0) quarterPlayed))
    = [SetCurrentTime t1; Play] /\
    calls (seekFromHover (setHoverLen (Some 332) quarterPlayed))
    = [SetCurrentTime t2; Play] /\
    t1 <= t2 /\
    (0 == 0 -> t1 == 0).
Proof.
  apply (seek_monotone quarterPlayed 0 332 100).
  - reflexivity.
  - vm_compute. reflexivity.
  - reflexivity.
  - vm_compute. reflexivity.
  - vm_compute. discriminate.
Defined.

(** X20.  The progress stroke ends where the user clicked: when a seek is not
    clamped ([0 <= duration * (h / pathLen) <= duration - 0.01]) and the
    assigned time is reported back by a time update, [progress * pathLen] is
    the hover location [h] again. *)
Theorem seek_progress_roundtrip (st : State) (h dur : Q) :
  hoverLen st = Some h ->
  videoRef st = true ->
  0 <= h ->
  0 < pathLen st ->
  duration st = Fin dur ->
  0 < dur ->
  dur * (h / pathLen st) <= dur - (1 # 100) ->
  exists t,
    calls (seekFromHover st) = [SetCurrentTime t; Play] /\
    t == dur * (h / pathLen st) /\
    progress (onTime t (next (seekFromHover st)))
    * pathLen (onTime t (next (seekFromHover st))) == h.
Proof.
  intros Hh Hv Hh0 HL Hdur Hd Hfit.
  set (L := pathLen st) in *.
  set (t := Qmax 0 (Qmin (dur * (h / L)) (dur - (1 # 100)))).
  assert (Hc : seekFromHover st =
               mkOutcome (setIsPlaying true st) [SetCurrentTime t; Play] false).
  { apply seekFromHover_commit with (h := h); try assumption.
    - rewrite Hdur. apply num_falsy_Fin. lra.
    - rewrite Hdur. apply seekTime_finite. fold L. lra. }
  assert (Hq : 0 <= h / L) by (apply Qle_shift_div_l; lra).
  assert (Hdq : 0 <= dur * (h / L)) by (apply Qmult_le_0_compat; lra).
  assert (Et : t == dur * (h / L)).
  { unfold t.
    destruct (Qmin_cases (dur * (h / L)) (dur - (1 # 100))) as [[H1 ->]|[H1 ->]];
      match goal with
      | |- Qmax 0 ?u == _ => destruct (Qmax_cases 0 u) as [[H3 ->]|[H3 ->]]
      end; lra. }
  exists t. split; [rewrite Hc; reflexivity|]. split; [exact Et|].
  rewrite Hc. unfold progress, onTime. cbn. rewrite Hdur. cbn [num_pos]. fold L.
  assert (E : Qlt_bool 0 dur = true) by now apply Qlt_bool_iff.
  rewrite E, (or_zero_eq t), Et. field. split; lra.
Qed.

Lemma seek_progress_roundtrip_witness :
  exists t,
    calls (seekFromHover sideHovered) = [SetCurrentTime t; Play] /\
    t == 100 * ((159360 # 480) / pathLen sideHovered) /\
    progress (onTime t (next (seekFromHover sideHovered)))
    * pathLen (onTime t (next (seekFromHover sideHovered))) == 159360 # 480.
Proof.
  apply (seek_progress_roundtrip sideHovered (159360 # 480) 100).
  - vm_compute. reflexivity.
  - reflexivity.
  - vm_compute. discriminate.
  - vm_compute. reflexivity.
  - reflexivity.
  - vm_compute. reflexivity.
  - vm_compute. discriminate.
Defined.

(** ** Measuring *)

Lemma run_pathLen_fixed (props : Props) (evs : list Event) (st : State)
      (p : SVGPath) :
  pathRef st = Some p ->
  pathLen st = getTotalLength p ->
  pathLen (run props evs st) = getTotalLength p.
Proof.
  unfold run. revert st.
  induction evs as [|ev evs IH]; intros st Hp HL; [exact HL|].
  cbn [fold_left].
  destruct (step_refs props st ev p Hp) as [Hp' [E|E]];
    apply IH; try exact Hp'; congruence.
Qed.

(** X21.  The path length of a mounted player is 1 until the animation frame
    of the measuring effect has run, and from then on it is the length the
    path element reported, whatever else happens. *)
Theorem measured_once (props : Props) (evs : list Event) (p : SVGPath) :
  (Forall (fun ev => ev <> Measure) evs ->
   pathLen (run props evs (mounted p)) = 1) /\
  (In Measure evs ->
   pathLen (run props evs (mounted p)) = getTotalLength p).
Proof.
  split.
  - intro Hall. unfold run.
    assert (Hgen : forall st, pathRef st = Some p -> pathLen st = 1 ->
                              pathLen (fold_left (step props) evs st) = 1).
    { induction Hall as [|ev evs Hev _ IH]; intros st Hp HL; [exact HL|].
      cbn [fold_left].
      destruct (step_refs props st ev p Hp) as [Hp' _].
      apply IH; [exact Hp'|].
      destruct ev; cbn [step]; try exact HL.
      - contradiction Hev. reflexivity.
      - unfold handlePointerMove. rewrite Hp. cbv zeta.
        destruct (near _ _); exact HL.
      - destruct (seekFromHover_refs st) as [_ ->]. exact HL.
      - unfold togglePlay. destruct (negb (videoRef st));
          [|destruct (isPlaying st)]; exact HL.
      - unfold replay. destruct (negb (videoRef st)); exact HL. }
    apply Hgen; reflexivity.
  - intro Hin. apply in_split in Hin. destruct Hin as (l1 & l2 & ->).
    unfold run. rewrite fold_left_app. cbn [fold_left step].
    destruct (run_refs props l1 (mounted p) p eq_refl (or_introl eq_refl))
      as [Hp _].
    unfold run in Hp.
    apply (run_pathLen_fixed props l2 _ p).
    + unfold measure. rewrite Hp. exact Hp.
    + unfold measure. rewrite Hp. reflexivity.
Qed.

Lemma measured_once_witness :
  pathLen (run squareProps [PointerMove ev_start; Loaded (Fin 100)] (mounted squareTrack))
  = 1 /\
  pathLen (run squareProps [PointerMove ev_start; Measure; Loaded (Fin 100); PointerDown]
               (mounted squareTrack))
  = getTotalLength squareTrack.
Proof.
  split.
  - apply (proj1 (measured_once squareProps [PointerMove ev_start; Loaded (Fin 100)]
                    squareTrack)).
    repeat constructor; discriminate.
  - apply (proj2 (measured_once squareProps
                    [PointerMove ev_start; Measure; Loaded (Fin 100); PointerDown]
                    squareTrack)).
    right. left. reflexivity.
Defined.
